(** * madcad.standard: range stepper, coil springs and standard fasteners

    A shallow embedding of [src/madcad/standard.py].

    Numbers.  The Python code computes on floats; here every number is an
    exact rational ([Q]), compared with [==].  Rounding is modelled in one
    place, where it decides what an ordinary call does: the quantities the
    tension spring derives go through [floor], so each operation on the way
    is rounded by [fl], a variable.  With the identity for [fl] this is the
    arithmetic of the reals, with [Double.round] that of the doubles.
    Elsewhere the statements are about the arithmetic the code writes down.
    On doubles the repeated addition of [linrange] rounds at every step,
    which can change how many values a long run has and which is its last:
    the module [Binary64] holds a second copy of the range stepper on IEEE
    doubles, to run its examples with rounding.

    Environment.  The module reads a few names that it does not define:
    the tolerance [NUMPREC], the constant [pi], the functions [cos] and
    [sin], the tessellation policy [settings.curve_resolution] and the
    table search [bisect].  They are variables of the sections below,
    constrained only by the hypotheses a statement lists.

    Effects.  A call may return, raise a Python exception, or keep running
    for ever (a [while] loop that never exits); [outcome] has the three
    cases, loops take fuel. *)

From Stdlib Require Import QArith Qround Qabs ZArith List Lia Lqa Bool.
From Stdlib Require Import String Ascii.
From Stdlib Require Floats Uint63.
Import ListNotations.
Open Scope Q_scope.

(** ** Outcomes of a call *)

Inductive exn : Type :=
| ValueError (msg : string)
| ZeroDivisionError
| IndexError.

Inductive outcome (A : Type) : Type :=
| Ret (a : A)
| Raise (e : exn)
| Timeout.

Arguments Ret {A} a.
Arguments Raise {A} e.
Arguments Timeout {A}.

Definition bind {A B : Type} (m : outcome A) (k : A -> outcome B) : outcome B :=
  match m with
  | Ret a => k a
  | Raise e => Raise e
  | Timeout => Timeout
  end.

Notation "x <- m ;; k" := (bind m (fun x => k))
  (at level 61, m at next level, right associativity).

Definition fmap {A B : Type} (f : A -> B) (m : outcome A) : outcome B :=
  x <- m ;; Ret (f x).

(** Python's [a / b] on numbers. *)
Definition pydiv (a b : Q) : outcome Q :=
  if Qeq_bool b 0 then Raise ZeroDivisionError else Ret (a / b).

(** [l[0]] and [l[-1]]. *)
Definition first_item {A : Type} (l : list A) : outcome A :=
  match l with
  | [] => Raise IndexError
  | a :: _ => Ret a
  end.

Definition last_item {A : Type} (l : list A) : outcome A :=
  match l with
  | [] => Raise IndexError
  | a :: l' => Ret (last l' a)
  end.

(** [l[i]] for an index [i] that is not negative. *)
Definition item {A : Type} (l : list A) (i : nat) : outcome A :=
  match nth_error l i with
  | Some a => Ret a
  | None => Raise IndexError
  end.

(** [if not x: x = dflt] for an optional number: [None] and zero are falsy. *)
Definition or_default (x : option Q) (dflt : Q) : Q :=
  match x with
  | None => dflt
  | Some v => if Qeq_bool v 0 then dflt else v
  end.

(** [sign], [floor], [ceil] and [radians] on numbers. *)
Definition sign (x : Q) : Q :=
  if Qlt_le_dec 0 x then 1 else if Qlt_le_dec x 0 then - (1) else 0.

Definition floor (x : Q) : Q := inject_Z (Qfloor x).

Definition ceil (x : Q) : Q := inject_Z (Qceiling x).

(** A count used as a number. *)
Definition qnat (n : nat) : Q := inject_Z (Z.of_nat n).

(** Pointwise [==] on sequences of numbers. *)
Definition seq_eq (l l' : list Q) : Prop := Forall2 Qeq l l'.

(** ** Points, wires and the kernel operations the module calls *)

Record vec3 : Type := Vec3 { vx : Q; vy : Q; vz : Q }.

(** The constants [O], [X], [Y] and [Z]. *)
Definition vO : vec3 := Vec3 0 0 0.
Definition vX : vec3 := Vec3 1 0 0.
Definition vY : vec3 := Vec3 0 1 0.
Definition vZ : vec3 := Vec3 0 0 1.

Definition vadd (a b : vec3) : vec3 :=
  Vec3 (vx a + vx b) (vy a + vy b) (vz a + vz b).

Definition vsub (a b : vec3) : vec3 :=
  Vec3 (vx a - vx b) (vy a - vy b) (vz a - vz b).

Definition vscale (k : Q) (a : vec3) : vec3 :=
  Vec3 (k * vx a) (k * vy a) (k * vz a).

Definition veq (a b : vec3) : Prop :=
  vx a == vx b /\ vy a == vy b /\ vz a == vz b.

Definition veqb (a b : vec3) : bool :=
  Qeq_bool (vx a) (vx b) && Qeq_bool (vy a) (vy b) && Qeq_bool (vz a) (vz b).

(** Squared distance of a point to the [Z] axis, the axis of every coil. *)
Definition axis_dist2 (p : vec3) : Q := vx p * vx p + vy p * vy p.

(** [p] lies at distance [dist] of the [Z] axis, up to [tol]. *)
Definition at_axis_distance (p : vec3) (dist tol : Q) : Prop :=
  (dist - tol) * (dist - tol) <= axis_dist2 p <= (dist + tol) * (dist + tol).

(** A 3x3 matrix, by rows. *)
Record mat3 : Type := Mat3 { row0 : vec3; row1 : vec3; row2 : vec3 }.

Definition dot (a b : vec3) : Q := vx a * vx b + vy a * vy b + vz a * vz b.

Definition mat_apply (m : mat3) (v : vec3) : vec3 :=
  Vec3 (dot (row0 m) v) (dot (row1 m) v) (dot (row2 m) v).

Definition mat_col (m : mat3) (i : nat) : vec3 :=
  match i with
  | 0%nat => Vec3 (vx (row0 m)) (vx (row1 m)) (vx (row2 m))
  | 1%nat => Vec3 (vy (row0 m)) (vy (row1 m)) (vy (row2 m))
  | _ => Vec3 (vz (row0 m)) (vz (row1 m)) (vz (row2 m))
  end.

Definition mat_mul (a b : mat3) : mat3 :=
  let r (u : vec3) := Vec3 (dot u (mat_col b 0)) (dot u (mat_col b 1)) (dot u (mat_col b 2)) in
  Mat3 (r (row0 a)) (r (row1 a)) (r (row2 a)).

(** Modelled from the spec: [scaledir] is not under src/.  [scaledir(dir, f)]
    scales by [f] along the unit direction [dir] and leaves the orthogonal
    directions alone: identity + (f - 1) dir dir^T. *)
Definition scaledir (dir : vec3) (f : Q) : mat3 :=
  let r (u : vec3) (c : Q) := vadd u (vscale ((f - 1) * c) dir) in
  Mat3 (r vX (vx dir)) (r vY (vy dir)) (r vZ (vz dir)).

(** A wire: its points in traversal order and its group tags. *)
Record Wire : Type := mkWire { points : list vec3; groups : list string }.

(** Modelled from the spec: [Wire.__add__] is not under src/.  Concatenation
    keeps the traversal order of both operands. *)
Definition wire_add (a b : Wire) : Wire :=
  mkWire (points a ++ points b) (groups a ++ groups b).

(** What [Wire.transform] accepts here: a vector (a translation) or a
    matrix. *)
Inductive transformation : Type :=
| Translate (v : vec3)
| Linear (m : mat3).

Definition transformer (tr : transformation) (p : vec3) : vec3 :=
  match tr with
  | Translate v => vadd p v
  | Linear m => mat_apply m p
  end.

(** Modelled from the spec: [Wire.transform] is not under src/.  It applies
    the transformation to every point. *)
Definition transform (tr : transformation) (w : Wire) : Wire :=
  mkWire (map (transformer tr) (points w)) (groups w).

(** Modelled from the spec: [Wire.flip] is not under src/.  It reverses the
    traversal direction. *)
Definition flip (w : Wire) : Wire := mkWire (rev (points w)) (groups w).

(** Modelled from the spec: [Wire.mergeclose] is not under src/.  Adjacent
    coincident points are merged, the earlier one is kept. *)
Fixpoint merge_from (p : vec3) (l : list vec3) : list vec3 :=
  match l with
  | [] => [p]
  | q :: l' => if veqb p q then merge_from p l' else p :: merge_from q l'
  end.

Definition mergeclose (w : Wire) : Wire :=
  match points w with
  | [] => w
  | p :: l => mkWire (merge_from p l) (groups w)
  end.

(** The curve primitives handed to [wire([...])] by the tension spring. *)
Inductive primitive : Type :=
| ArcCentered (origin dir a b : vec3)
| ArcThrough (a b c : vec3)
| Sub (w : Wire).

(** The disc swept by [tube]: [Circle((center, normal), radius)] turned into
    a surface, with the normal normalized when [unit_normal] is false and the
    surface flipped when [flipped] is true. *)
Record disc : Type :=
  mkDisc { center : vec3; normal : vec3; unit_normal : bool; radius : Q; flipped : bool }.

(** What a spring generator returns: the bare path, or the tube swept along
    it. *)
Inductive shape (P : Type) : Type :=
| Path (p : P)
| Tube (section : disc) (p : P).

Arguments Path {P} p.
Arguments Tube {P} section p.

(** ** Fasteners: results and tables *)

(** The mesh built by [hexnut(d, w, h)]. *)
Record HexNut : Type := mkHexNut { nut_d : Q; nut_w : Q; nut_h : Q }.

(** The mesh built at the end of [washer]: interior and exterior diameters
    and height. *)
Record Washer : Type := mkWasher { washer_d : Q; washer_e : Q; washer_h : Q }.

Definition standard_hexnuts : list (Q * Q * Q) :=
  [ (1.6,  3.2, 1.3);
    (2,    4,   1.6);
    (2.5,  5,   2);
    (3,    5.5, 2.4);
    (3.5,  6,   2.8);
    (4,    7,   3.2);
    (5,    8,   4.7);
    (6,    10,  5.2);
    (8,    13,  6.8);
    (10,   16,  8.4);
    (12,   18,  10.8);
    (14,   21,  12.8);
    (16,   24,  14.8);
    (18,   27,  15.8);
    (20,   30,  18);
    (22,   34,  19.4);
    (24,   36,  21.5);
    (27,   41,  23.8);
    (30,   46,  25.6);
    (33,   50,  38.7);
    (36,   55,  31);
    (39,   60,  33.4);
    (42,   65,  34);
    (45,   70,  36);
    (48,   75,  38);
    (52,   80,  42);
    (56,   85,  45);
    (60,   90,  48);
    (64,   95,  51) ].

Definition standard_washers : list (Q * Q * Q * Q) :=
  [ (1.6, 1.7, 4,   0.3);
    (2,   2.2, 5,   0.3);
    (2.5, 2.7, 6,   0.5);
    (2.6, 2.8, 7,   0.5);
    (3,   3.2, 7,   0.5);
    (3.5, 3.7, 8,   0.5);
    (4,   4.3, 9,   0.8);
    (5,   5.3, 10,  1);
    (6,   6.4, 12,  1.6);
    (7,   7.4, 14,  1.6);
    (8,   8.4, 16,  1.6);
    (10,  10.5, 20, 2);
    (12,  13,  24,  2.5);
    (14,  15,  28,  2.5);
    (16,  17,  30,  3);
    (18,  19,  34,  3);
    (20,  21,  37,  3);
    (22,  23,  39,  3);
    (24,  25,  44,  4);
    (27,  28,  50,  4);
    (30,  31,  56,  4);
    (33,  34,  60,  5);
    (36,  37,  66,  5);
    (39,  40,  72,  6);
    (42,  43,  78,  7);
    (45,  46,  85,  7);
    (48,  50,  92,  8);
    (52,  54,  98,  8);
    (56,  58,  105, 9) ].

(** [itemgetter(0)] on the rows of the two tables. *)
Definition hexnut_key (row : Q * Q * Q) : Q := fst (fst row).
Definition washer_key (row : Q * Q * Q * Q) : Q := fst (fst (fst row)).

(** ** The range stepper [linrange] *)

(** The state of the generator between two [yield]s: the local [t] and the
    adjusted [step] and [stop]. *)
Record gen : Type := Gen { gen_t : Q; gen_step : Q; gen_stop : Q }.

(** One turn of [while t <= stop: yield t; t += step]. *)
Definition next (g : gen) : option (Q * gen) :=
  if Qle_bool (gen_t g) (gen_stop g)
  then Some (gen_t g, Gen (gen_t g + gen_step g) (gen_step g) (gen_stop g))
  else None.

(** Exhausting the generator, as a [for] loop or a comprehension does. *)
Fixpoint collect (fuel : nat) (g : gen) : outcome (list Q) :=
  match fuel with
  | 0%nat => Timeout
  | S fuel' =>
      match next g with
      | None => Ret []
      | Some (t, g') => fmap (cons t) (collect fuel' g')
      end
  end.

(** The first [n] values the generator yields. *)
Fixpoint take (n : nat) (g : gen) : list Q :=
  match n with
  | 0%nat => []
  | S n' =>
      match next g with
      | None => []
      | Some (t, g') => t :: take n' g'
      end
  end.

(** The generator is exhausted after finitely many values. *)
Definition finite (g : gen) : Prop := exists fuel l, collect fuel g = Ret l.

(** [t] is one of the values the generator yields. *)
Definition yields (g : gen) (t : Q) : Prop := exists n, In t (take n g).

Section Standard.

(** The rounding of the result of an operation to a double: the identity
    for the arithmetic of the reals, [Double.round] for that of the
    doubles. *)
Variable fl : Q -> Q.

Variable NUMPREC : Q.
Variable pi : Q.
Variables cos sin : Q -> Q.
Variable curve_resolution : Q -> Q -> nat.
Variable bisect : forall A : Type, list A -> Q -> (A -> Q) -> nat.

Definition radians (deg : Q) : Q := deg * (pi / 180).

(** The body of [linrange] up to the loop: the four argument adjustments.
    [div] is a count of intermediate steps. *)
Definition linrange (start : Q) (stop : option Q) (step : option Q)
    (div : nat) (end_ : bool) : gen :=
  let '(start, stop) :=
    match stop with
    | None => (0, start)
    | Some s => (start, s)
    end in
  let step :=
    match step with
    | None => (stop - start) / (qnat div + 1)
    | Some s => if Qlt_le_dec (s * (stop - start)) 0 then - s else s
    end in
  let stop := if end_ then stop else stop - step in
  let stop := stop + NUMPREC in
  Gen start step stop.

(** Modelled from the spec: [angleAxis] is not under src/.
    [angleAxis(a, Z)] is the rotation of angle [a] about the [Z] axis. *)
Definition angleAxis_Z (a : Q) : mat3 :=
  Mat3 (Vec3 (cos a) (- sin a) 0) (Vec3 (sin a) (cos a) 0) (Vec3 0 0 1).

(** *** nut *)

Definition nut (d : Q) : outcome HexNut :=
  args <- item standard_hexnuts (bisect _ standard_hexnuts d hexnut_key) ;;
  if negb (Qeq_bool (hexnut_key args) d)
  then Raise (ValueError "no standard nut for the given diameter")
  else let '(d, w, h) := args in Ret (mkHexNut d w h).

(** *** washer *)

Definition washer (d : Q) (e h : option Q) : outcome Washer :=
  match e, h with
  | None, None =>
      args <- item standard_washers (bisect _ standard_washers d washer_key) ;;
      rel <- pydiv (Qabs (washer_key args - d)) d ;;
      if Qlt_le_dec rel 0.2
      then let '(_, d, e, h) := args in Ret (mkWasher d e h)
      else Raise (ValueError "no standard nut for the given diameter")
  | _, _ =>
      let d := d * 1.1 in
      let e := match e with None => d * 2 | Some e => e end in
      let h := match h with None => d * 0.1 | Some h => h end in
      Ret (mkWasher d e h)
  end.

(** *** coilspring_compression *)

(** The loop variable of [for t in ...] after the loop: the last value
    yielded, or its former value when nothing was yielded. *)
Definition after_loop (ts : list Q) (t : Q) : Q := last ts t.

Definition coilspring_compression (fuel : nat) (length : Q)
    (d thickness : option Q) (solid : bool) : outcome (shape Wire) :=
  let d := or_default d (length * 0.2) in
  let thickness := or_default thickness (d * 0.1) in
  let r := d / 2 - thickness in
  let e := r in
  let div := curve_resolution (d * pi) (2 * pi) in
  let step := 2 * pi / (qnat div + 1) in
  let t := 0 in
  let t0 := t in
  let z0 := - 0.5 * length in
  ts <- collect fuel (linrange t0 (Some (t0 + 4 * pi)) (Some step) 0 true) ;;
  let top := map (fun t => Vec3 (r * cos t) (r * sin t)
                             (z0 + (t - t0) / (2 * pi) * thickness)) ts in
  let t := after_loop ts t in
  let t0 := t in
  let z0 := - 0.5 * length + 2 * thickness in
  turns <- pydiv (2 * pi * (length - 4 * thickness)) e ;;
  ts <- collect fuel (linrange t0 (Some (t0 + turns)) (Some step) 0 true) ;;
  let coil := map (fun t => Vec3 (r * cos t) (r * sin t)
                              (z0 + (t - t0) / (2 * pi) * e)) ts in
  let t := after_loop ts t in
  let t0 := t in
  let z0 := 0.5 * length - 2 * thickness in
  ts <- collect fuel (linrange t0 (Some (t0 + 4 * pi)) (Some step) 0 true) ;;
  let bot := map (fun t => Vec3 (r * cos t) (r * sin t)
                             (z0 + (t - t0) / (2 * pi) * thickness)) ts in
  let path := wire_add (wire_add (mkWire top ["coil"%string])
                                 (mkWire coil ["spring"%string]))
                       (mkWire bot ["coil"%string]) in
  if negb solid then Ret (Path path)
  else
    p0 <- first_item (points path) ;;
    Ret (Tube (mkDisc p0 vY true (thickness / 2) true) path).

(** *** coilspring_tension *)

(** The quantities derived before the coil is built. *)
Record tension_dims : Type :=
  mkTension { t_d : Q; t_thickness : Q; t_r : Q; t_ncoil : Q; t_hold : Q }.

(** Each operation is rounded by [fl]: [floor] turns a quotient that
    rounding moves across an integer into another count of turns.  The
    literals 0.2 and 0.1 are rounded too; 0.5 and 2 are doubles.  What is
    computed after these quantities is not rounded. *)
Definition tension_derived (length : Q) (d thickness : option Q)
    : outcome tension_dims :=
  let d := or_default d (fl (length * fl 0.2)) in
  let thickness := or_default thickness (fl (d * fl 0.1)) in
  let r := fl (fl (d / 2) - thickness) in
  let spring_length := fl (length - fl (2 * r)) in
  turns <- pydiv spring_length thickness ;;
  let ncoil := fl (floor (fl turns) - 0.5) in
  let hold := fl (fl (0.5 * length) - r) in
  Ret (mkTension d thickness r ncoil hold).

Definition coilspring_tension (fuel : nat) (length : Q)
    (d thickness : option Q) (solid : bool) : outcome (shape (list primitive)) :=
  dims <- tension_derived length d thickness ;;
  let d := t_d dims in
  let thickness := t_thickness dims in
  let r := t_r dims in
  let ncoil := t_ncoil dims in
  let hold := t_hold dims in
  let div := curve_resolution (d * pi) (2 * pi) in
  let step := 2 * pi / (qnat div + 1) in
  let z0 := - 0.5 * ncoil * thickness in
  ts <- collect fuel (linrange 0 (Some (2 * pi * ncoil)) (Some step) 0 true) ;;
  let coil := mkWire (map (fun t => Vec3 (r * cos t) (r * sin t)
                                      (z0 + t / (2 * pi) * thickness)) ts)
                     ["spring"%string] in
  c0 <- first_item (points coil) ;;
  cN <- last_item (points coil) ;;
  let path :=
    [ ArcCentered (vscale (- 0.5 * length) vZ) vX
                  (Vec3 0 (- r) (- 0.5 * length)) (vscale (- hold) vZ);
      ArcThrough (vscale (- hold) vZ)
                 (vsub (vscale 0.5 (vadd (vscale (- hold) vZ) c0))
                       (vscale (0.5 * r) vY))
                 c0;
      Sub coil;
      ArcThrough cN
                 (vsub (vscale 0.5 (vadd (vscale hold vZ) cN))
                       (vscale (0.5 * r) vY))
                 (vscale hold vZ);
      ArcCentered (vscale (0.5 * length) vZ) vX
                  (vscale hold vZ) (Vec3 0 (- r) (0.5 * length)) ] in
  if negb solid then Ret (Path path)
  else Ret (Tube (mkDisc (Vec3 0 (- r) (- 0.5 * length)) vZ true
                         (thickness / 2) false) path).

(** *** coilspring_torsion *)

(** The hook length after the clamp, and the arm built from it, before it is
    moved to the start of the coil. *)
Definition torsion_hook (thickness hook : Q) : Q :=
  let c := thickness * sign hook in
  if Qlt_le_dec (Qabs hook) (Qabs c) then c else hook.

Definition torsion_arm (arm thickness hook : Q) : list vec3 :=
  let c := thickness * sign hook in
  let hook := torsion_hook thickness hook in
  [ Vec3 arm 0 hook;
    Vec3 arm 0 c;
    Vec3 (arm - Qabs c) 0 0;
    vO ].

Definition coilspring_torsion (fuel : nat) (arm : Q)
    (angle d length thickness hook : option Q) (solid : bool)
    : outcome (shape Wire) :=
  let angle := match angle with None => radians 45 | Some a => a end in
  let length := or_default length (arm * 0.5) in
  let d := or_default d arm in
  let thickness := or_default thickness (d * 0.1) in
  let hook := or_default hook (- length) in
  let r := d / 2 - thickness in
  let angle := pi - angle in
  turns <- pydiv length thickness ;;
  let ncoil := ceil turns + angle / (2 * pi) in
  let div := curve_resolution (d * pi) (2 * pi) in
  let step := 2 * pi / (qnat div + 1) in
  let z0 := - 0.5 * ncoil * thickness in
  ts <- collect fuel (linrange 0 (Some (2 * pi * ncoil)) (Some step) 0 true) ;;
  let coil := mkWire (map (fun t => Vec3 (- r * sin t) (r * cos t)
                                      (z0 + t / (2 * pi) * thickness)) ts)
                     ["spring"%string] in
  c0 <- first_item (points coil) ;;
  let top := transform (Translate c0)
                       (mkWire (torsion_arm arm thickness hook) []) in
  let bot := transform (Linear (angleAxis_Z angle))
               (transform (Linear (mat_mul (scaledir vZ (- (1))) (scaledir vX (- (1)))))
                  (flip top)) in
  let path := mergeclose (wire_add (wire_add top coil) bot) in
  if negb solid then Ret (Path path)
  else
    p0 <- item (points path) 0 ;;
    p1 <- item (points path) 1 ;;
    Ret (Tube (mkDisc p0 (vsub p0 p1) false (thickness / 2) false) path).

End Standard.

(** The bound the values of a range are meant to respect, in the direction
    of the range: from [start] up to [stop + eps], or from [start] down to
    [stop - eps]. *)
Definition within_range (start stop eps t : Q) : Prop :=
  (start <= stop -> start <= t <= stop + eps) /\
  (stop < start -> stop - eps <= t <= start).

(** ** A sample environment

    Values for the names the module imports, to run the definitions on:
    the tolerance 1e-13, the fraction 355/113 for [pi], the rational
    parametrisation of the unit circle by the half angle for [cos] and [sin]
    (exact at 0, and the squares add up to 1) and a constant resolution. *)
Module Sample.

Definition NUMPREC : Q := 1 # 10000000000000.

Definition pi : Q := 355 # 113.

Definition cos (t : Q) : Q :=
  (1 - (t / 2) * (t / 2)) / (1 + (t / 2) * (t / 2)).

Definition sin (t : Q) : Q := t / (1 + (t / 2) * (t / 2)).

Definition curve_resolution (length angle : Q) : nat := 3.

End Sample.

(** ** The table lookup

    Modelled from the spec: [bisect] is imported from [madcad.mathutils],
    which is not under src/.  The spec describes it as "a sorted-table
    nearest/exact lookup by nominal diameter": [nearest l d key] is the
    position of a row of [l] whose key is nearest to [d], hence the row of
    [d] itself when there is one. *)
Fixpoint nearest_from {A : Type} (key : A -> Q) (d : Q) (best : nat) (dist : Q)
    (i : nat) (l : list A) : nat :=
  match l with
  | [] => best
  | a :: l' =>
      if Qlt_le_dec (Qabs (key a - d)) dist
      then nearest_from key d i (Qabs (key a - d)) (S i) l'
      else nearest_from key d best dist (S i) l'
  end.

Definition nearest (A : Type) (l : list A) (d : Q) (key : A -> Q) : nat :=
  match l with
  | [] => 0%nat
  | a :: l' => nearest_from key d 0 (Qabs (key a - d)) 1 l'
  end.

(** Position [i] holds a row of [l] whose key is nearest to [d]. *)
Definition is_nearest {A : Type} (l : list A) (d : Q) (key : A -> Q) (i : nat)
    : Prop :=
  exists row,
    nth_error l i = Some row /\
    forall row', In row' l -> Qabs (key row - d) <= Qabs (key row' - d).

(** What the spec says of the lookup. *)
Definition selects_nearest (bisect : forall A : Type, list A -> Q -> (A -> Q) -> nat)
    : Prop :=
  forall (A : Type) (l : list A) (d : Q) (key : A -> Q),
    l <> [] -> is_nearest l d key (bisect A l d key).

(** ** The range stepper on doubles

    The same [linrange], [next] and [take] on binary64 numbers, with the
    tolerance 1e-13. *)
Module Binary64.

Import Floats.
Local Open Scope float_scope.
Local Set Warnings "-inexact-float".

Definition NUMPREC : float := 1e-13.

Record gen : Type := Gen { gen_t : float; gen_step : float; gen_stop : float }.

Definition of_count (n : nat) : float :=
  PrimFloat.of_uint63 (Uint63.of_Z (Z.of_nat n)).

Definition linrange (start : float) (stop : option float) (step : option float)
    (div : nat) (end_ : bool) : gen :=
  let '(start, stop) :=
    match stop with
    | None => (0, start)
    | Some s => (start, s)
    end in
  let step :=
    match step with
    | None => (stop - start) / (of_count div + 1)
    | Some s => if s * (stop - start) <? 0 then - s else s
    end in
  let stop := if end_ then stop else stop - step in
  let stop := stop + NUMPREC in
  Gen start step stop.

Definition next (g : gen) : option (float * gen) :=
  if gen_t g <=? gen_stop g
  then Some (gen_t g, Gen (gen_t g + gen_step g) (gen_step g) (gen_stop g))
  else None.

Fixpoint take (n : nat) (g : gen) : list float :=
  match n with
  | 0%nat => []
  | S n' =>
      match next g with
      | None => []
      | Some (t, g') => t :: take n' g'
      end
  end.

End Binary64.

(** Every exception [m] may raise satisfies [P]. *)
Definition raises_only {A : Type} (P : exn -> Prop) (m : outcome A) : Prop :=
  forall e, m = Raise e -> P e.

(** ** Rounding to a double

    [round x] is the number [m * 2^e] with [|m| <= 2^53] nearest to [x], ties
    to the even [m]: the rounding of the doubles, without their bounds on the
    exponent (no overflow, no underflow). *)
Module Double.

(** [n / d] rounded to the nearest integer, ties to even, for [d > 0]. *)
Definition nearest_even (n d : Z) : Z :=
  let q := (n / d)%Z in
  let r := (n mod d)%Z in
  match (2 * r ?= d)%Z with
  | Lt => q
  | Gt => (q + 1)%Z
  | Eq => if Z.even q then q else (q + 1)%Z
  end.

(** The positive [a / d] rounded to [m * 2^e] with [2^52 <= m <= 2^53]. *)
Definition round_pos (a d : Z) : Q :=
  let e0 := (Z.log2 a - Z.log2 d - 52)%Z in
  let scaled (e : Z) : Z * Z :=
    if (0 <=? e)%Z then (a, d * 2 ^ e)%Z else (a * 2 ^ (- e), d)%Z in
  let e := let '(n, k) := scaled e0 in
           if (n <? k * 2 ^ 52)%Z then (e0 - 1)%Z else e0 in
  let '(n, k) := scaled e in
  let m := nearest_even n k in
  if (0 <=? e)%Z then inject_Z (m * 2 ^ e)
  else Qmake m (Z.to_pos (2 ^ (- e))).

Definition round (x : Q) : Q :=
  match Qnum x with
  | Z0 => 0
  | Zpos a => round_pos (Zpos a) (Zpos (Qden x))
  | Zneg a => - round_pos (Zpos a) (Zpos (Qden x))
  end.

End Double.

(** ** Chains of curve primitives

    Modelled from the spec: the curve primitives are not under src/.  A
    centered arc runs from [a] to [b], an arc through three points from [a]
    to [c], a wire from its first point to its last. *)
Definition prim_start (c : primitive) : outcome vec3 :=
  match c with
  | ArcCentered _ _ a _ => Ret a
  | ArcThrough a _ _ => Ret a
  | Sub w => first_item (points w)
  end.

Definition prim_end (c : primitive) : outcome vec3 :=
  match c with
  | ArcCentered _ _ _ b => Ret b
  | ArcThrough _ _ c => Ret c
  | Sub w => last_item (points w)
  end.

(** Every primitive of the chain starts where the one before it ends. *)
Fixpoint connected (path : list primitive) : Prop :=
  match path with
  | c :: (c' :: _) as rest =>
      (exists p, prim_end c = Ret p /\ prim_start c' = Ret p) /\ connected rest
  | _ => True
  end.

(** [not x] for an optional number: [None] and zero are falsy. *)
Definition unset (x : option Q) : bool :=
  match x with
  | None => true
  | Some v => Qeq_bool v 0
  end.

(** ** Tests on the rows of the tables *)

Definition Qlt_bool (x y : Q) : bool := negb (Qle_bool y x).

(** The same fraction, written the same way. *)
Definition Qsame (x y : Q) : bool :=
  Z.eqb (Qnum x) (Qnum y) && Pos.eqb (Qden x) (Qden y).

(** A row of [standard_hexnuts] is in the range of the table, its width
    across flats exceeds the thread diameter and its height is positive. *)
Definition hexnut_row_ok (row : Q * Q * Q) : bool :=
  let '(k, w, h) := row in
  Qle_bool 1.6 k && Qle_bool k 64 && Qlt_bool k w && Qlt_bool 0 h.

Definition hexnut_row_same (row row' : Q * Q * Q) : bool :=
  let '(k, w, h) := row in
  let '(k', w', h') := row' in
  Qsame k k' && Qsame w w' && Qsame h h'.

(** No two rows of the table share a diameter. *)
Definition hexnut_keys_distinct : bool :=
  forallb (fun row =>
             forallb (fun row' =>
                        implb (Qeq_bool (hexnut_key row) (hexnut_key row'))
                              (hexnut_row_same row row'))
                     standard_hexnuts)
          standard_hexnuts.

(** A row of [standard_washers] is in the range of the table, its hole is
    wider than the nominal diameter and narrower than the washer, and its
    height is positive. *)
Definition washer_row_ok (row : Q * Q * Q * Q) : bool :=
  let '(k, i, e, h) := row in
  Qle_bool 1.6 k && Qle_bool k 56 && Qlt_bool k i && Qlt_bool i e && Qlt_bool 0 h.

Definition washer_row_same (row row' : Q * Q * Q * Q) : bool :=
  let '(k, i, e, h) := row in
  let '(k', i', e', h') := row' in
  Qsame k k' && Qsame i i' && Qsame e e' && Qsame h h'.

Definition washer_keys_distinct : bool :=
  forallb (fun row =>
             forallb (fun row' =>
                        implb (Qeq_bool (washer_key row) (washer_key row'))
                              (washer_row_same row row'))
                     standard_washers)
          standard_washers.

(** Each diameter of the list is less than one and a half times the one
    before it. *)
Fixpoint close_steps (k : Q) (l : list Q) : bool :=
  match l with
  | [] => true
  | k' :: l' => Qlt_bool k' (1.5 * k) && close_steps k' l'
  end.

(** ** Screw codes

    Strings are strings of ASCII characters.  A dictionary is the list of
    its items in insertion order; the second ['PH'] of the literal
    [screwdrives_codes] rewrites the value of the first and adds no item. *)

Definition screwheads_codes : list (string * string) :=
  [ ("SH", "socket");
    ("HH", "hex");
    ("VH", "flat");
    ("cone", "flat");
    ("BH", "button");
    ("SBH", "button");
    ("SS", "none");
    ("FT", "none") ]%string.

Definition screwdrives_codes : list (string * string) :=
  [ ("TX", "torx");
    ("T", "torx");
    ("TR", "torx");
    ("CS", "cap");
    ("phillips", "cross");
    ("P", "cross");
    ("PH", "cross") ]%string.

(** [codes.get(key, key)]. *)
Fixpoint dict_get (codes : list (string * string)) (key : string) : string :=
  match codes with
  | [] => key
  | (k, v) :: codes' => if String.eqb key k then v else dict_get codes' key
  end.

(** [str.isupper]: no lowercase letter and at least one uppercase letter. *)
Definition is_upper_letter (c : ascii) : bool :=
  (65 <=? nat_of_ascii c)%nat && (nat_of_ascii c <=? 90)%nat.

Definition is_lower_letter (c : ascii) : bool :=
  (97 <=? nat_of_ascii c)%nat && (nat_of_ascii c <=? 122)%nat.

Definition isupper (s : string) : bool :=
  existsb is_upper_letter (list_ascii_of_string s)
  && forallb (fun c => negb (is_lower_letter c)) (list_ascii_of_string s).

(** [s.endswith(suffix)]: [suffix] is [s] or the end of a tail of [s]. *)
Fixpoint endswith (s suffix : string) : bool :=
  String.eqb s suffix
  || match s with
     | EmptyString => false
     | String _ s' => endswith s' suffix
     end.

(** [s[:-n]] for a positive [n]. *)
Definition drop_end (s : string) (n : nat) : string :=
  substring 0 (String.length s - n) s.

(** [not drive] for a drive that is [None] or a string. *)
Definition falsy (drive : option string) : bool :=
  match drive with
  | None => true
  | Some s => String.eqb s ""
  end.

(** The loop of [screw_spec]: the first code, in the order of the
    dictionary, that ends [head]. *)
Fixpoint split_code (codes : list (string * string)) (head : string)
    : option (string * string) :=
  match codes with
  | [] => None
  | (code, _) :: codes' =>
      if endswith head code
      then Some (drop_end head (String.length code), code)
      else split_code codes' head
  end.

(** [screw_spec(head, drive)]: the head and the drive, resolved. *)
Definition screw_spec (head : string) (drive : option string)
    : string * option string :=
  let '(head, drive) :=
    if falsy drive && isupper head
    then match split_code screwdrives_codes head with
         | Some (head', code) => (head', Some code)
         | None => (head, drive)
         end
    else (head, drive) in
  let head := dict_get screwheads_codes head in
  let drive := option_map (dict_get screwdrives_codes) drive in
  let drive :=
    if negb (String.eqb head "hex") && falsy drive then Some "hex"%string
    else drive in
  (head, drive).

(** Every value of the dictionary is looked up as itself: none is a code. *)
Definition values_are_resolved (codes : list (string * string)) : bool :=
  forallb (fun kv => String.eqb (dict_get codes (snd kv)) (snd kv)) codes.


(** The last character of a string, if it has one. *)
Fixpoint last_char (s : string) : option ascii :=
  match s with
  | EmptyString => None
  | String c EmptyString => Some c
  | String _ s' => last_char s'
  end.

(** * Properties *)

(** ** The monad *)

Lemma bind_Ret_inv {A B : Type} (m : outcome A) (k : A -> outcome B) (b : B) :
  bind m k = Ret b -> exists a, m = Ret a /\ k a = Ret b.
Proof. destruct m; simpl; intros H; try discriminate. now exists a. Qed.

Lemma bind_Raise_inv {A B : Type} (m : outcome A) (k : A -> outcome B) (e : exn) :
  bind m k = Raise e -> m = Raise e \/ exists a, m = Ret a /\ k a = Raise e.
Proof.
  destruct m; simpl; intros H; try discriminate.
  - right. now exists a.
  - left. congruence.
Qed.

Lemma pydiv_Ret (a b : Q) : ~ b == 0 -> pydiv a b = Ret (a / b).
Proof.
  intros H. unfold pydiv. destruct (Qeq_bool b 0) eqn:E; auto.
  apply Qeq_bool_iff in E. contradiction.
Qed.

Lemma pydiv_zero (a b : Q) : b == 0 -> pydiv a b = Raise ZeroDivisionError.
Proof. intros H. unfold pydiv. apply Qeq_bool_iff in H. now rewrite H. Qed.

Lemma or_default_given (v dflt : Q) : ~ v == 0 -> or_default (Some v) dflt = v.
Proof.
  intros H. simpl. destruct (Qeq_bool v 0) eqn:E; auto.
  apply Qeq_bool_iff in E. contradiction.
Qed.

(** ** The loop of [linrange] *)

Lemma next_some (g : gen) :
  gen_t g <= gen_stop g ->
  next g = Some (gen_t g, Gen (gen_t g + gen_step g) (gen_step g) (gen_stop g)).
Proof. intros H. unfold next. apply Qle_bool_iff in H. now rewrite H. Qed.

Lemma next_none (g : gen) : gen_stop g < gen_t g -> next g = None.
Proof.
  intros H. unfold next. destruct (Qle_bool (gen_t g) (gen_stop g)) eqn:E; auto.
  apply Qle_bool_iff in E. lra.
Qed.

Lemma next_inv (g g' : gen) (t : Q) :
  next g = Some (t, g') ->
  t = gen_t g /\ gen_t g <= gen_stop g /\
  g' = Gen (gen_t g + gen_step g) (gen_step g) (gen_stop g).
Proof.
  unfold next. destruct (Qle_bool (gen_t g) (gen_stop g)) eqn:E; intros H.
  - inversion H; subst. apply Qle_bool_iff in E. auto.
  - discriminate.
Qed.

Lemma next_None_inv (g : gen) : next g = None -> gen_stop g < gen_t g.
Proof.
  unfold next. destruct (Qle_bool (gen_t g) (gen_stop g)) eqn:E; intros H.
  - discriminate.
  - apply Qnot_le_lt. intros C. apply Qle_bool_iff in C. congruence.
Qed.

(** More fuel does not change a finished run. *)
Lemma collect_more_fuel (fuel : nat) :
  forall (g : gen) (l : list Q),
    collect fuel g = Ret l ->
    forall fuel', (fuel <= fuel')%nat -> collect fuel' g = Ret l.
Proof.
  induction fuel as [|fuel IH]; intros g l H fuel' Hle; [discriminate|].
  destruct fuel' as [|fuel']; [lia|].
  simpl in *. destruct (next g) as [[t g']|]; auto.
  unfold fmap in *. apply bind_Ret_inv in H. destruct H as (l' & Hl' & Heq).
  rewrite (IH _ _ Hl' fuel') by lia. exact Heq.
Qed.

(** A finished run yielded exactly its first values. *)
Lemma collect_take (fuel : nat) :
  forall (g : gen) (l : list Q), collect fuel g = Ret l -> take fuel g = l.
Proof.
  induction fuel as [|fuel IH]; intros g l H; [discriminate|].
  simpl in *. destruct (next g) as [[t g']|].
  - unfold fmap in H. apply bind_Ret_inv in H. destruct H as (l' & Hl' & Heq).
    inversion Heq; subst. f_equal. now apply IH.
  - now inversion H.
Qed.

Lemma qnat_0 : qnat 0 == 0.
Proof. reflexivity. Qed.

Lemma qnat_S (n : nat) : qnat (S n) == qnat n + 1.
Proof. unfold qnat. rewrite Nat2Z.inj_succ, <- Z.add_1_r, inject_Z_plus. reflexivity. Qed.

Lemma qnat_nonneg (n : nat) : 0 <= qnat n.
Proof. unfold qnat. change 0 with (inject_Z 0). rewrite <- Zle_Qle. lia. Qed.

Lemma qnat_lt (n m : nat) : qnat n < qnat m -> (n < m)%nat.
Proof. unfold qnat. rewrite <- Zlt_Qlt. lia. Qed.

Lemma qnat_le (n m : nat) : (n <= m)%nat -> qnat n <= qnat m.
Proof. unfold qnat. rewrite <- Zle_Qle. lia. Qed.

(** The [i]-th value is [t + i * step], and it passed the loop test. *)
Lemma take_nth (n : nat) :
  forall (g : gen) (i : nat) (t : Q),
    nth_error (take n g) i = Some t ->
    t == gen_t g + qnat i * gen_step g /\ t <= gen_stop g.
Proof.
  induction n as [|n IH]; intros g i t H.
  - destruct i; discriminate.
  - simpl in H. destruct (next g) as [[t0 g']|] eqn:E.
    + apply next_inv in E. destruct E as (-> & Hle & ->).
      destruct i as [|i]; simpl in H.
      * inversion H; subst. split; [rewrite qnat_0; ring | exact Hle].
      * apply IH in H. simpl in H. destruct H as [H1 H2]. split; auto.
        rewrite H1, qnat_S. ring.
    + destruct i; discriminate.
Qed.

(** What a finished run looks like: every value is [t + i * step] below the
    bound, and the next candidate is above it. *)
Lemma collect_spec (fuel : nat) :
  forall (g : gen) (l : list Q),
    collect fuel g = Ret l ->
    (forall i t, nth_error l i = Some t ->
       t == gen_t g + qnat i * gen_step g /\ t <= gen_stop g) /\
    gen_stop g < gen_t g + qnat (List.length l) * gen_step g.
Proof.
  induction fuel as [|fuel IH]; intros g l H; [discriminate|].
  split.
  - apply collect_take in H. rewrite <- H. intros i t. apply take_nth.
  - simpl in H. destruct (next g) as [[t0 g']|] eqn:E.
    + apply next_inv in E. destruct E as (-> & Hle & ->).
      unfold fmap in H. apply bind_Ret_inv in H. destruct H as (l' & Hl' & Heq).
      inversion Heq; subst. apply IH in Hl'. destruct Hl' as [_ Hb].
      simpl in Hb. cbn [List.length]. rewrite qnat_S. lra.
    + inversion H; subst. apply next_None_inv in E. cbn [List.length].
      rewrite qnat_0. lra.
Qed.

(** With a positive step the loop exits: the bound is passed after [k]
    additions at most. *)
Lemma collect_within (k : nat) :
  forall g : gen,
    0 < gen_step g ->
    gen_stop g < gen_t g + qnat k * gen_step g ->
    exists l, collect (S k) g = Ret l.
Proof.
  induction k as [|k IH]; intros g Hs Hb.
  - rewrite qnat_0 in Hb. exists []. simpl. rewrite next_none; auto. lra.
  - destruct (Qlt_le_dec (gen_stop g) (gen_t g)) as [Hlt|Hle].
    + exists []. simpl. now rewrite next_none.
    + change (collect (S (S k)) g) with
        (match next g with
         | None => Ret []
         | Some (t, g') => fmap (cons t) (collect (S k) g')
         end).
      rewrite next_some by exact Hle.
      destruct (IH (Gen (gen_t g + gen_step g) (gen_step g) (gen_stop g))) as [l Hl].
      * exact Hs.
      * simpl. rewrite qnat_S in Hb. lra.
      * rewrite Hl. now exists (gen_t g :: l).
Qed.

Lemma archimedes (a s : Q) : 0 < s -> exists k : nat, a < qnat k * s.
Proof.
  intros Hs. exists (Z.to_nat (Qfloor (a / s) + 1)).
  assert (Hf : a / s < inject_Z (Qfloor (a / s) + 1)) by apply Qlt_floor.
  assert (Hq : inject_Z (Qfloor (a / s) + 1) <= qnat (Z.to_nat (Qfloor (a / s) + 1))).
  { unfold qnat. rewrite <- Zle_Qle. lia. }
  apply Qlt_le_trans with (inject_Z (Qfloor (a / s) + 1) * s).
  - assert (E : a / s * s == a) by (field; lra).
    rewrite <- E at 1. apply Qmult_lt_compat_r; assumption.
  - apply Qmult_le_compat_r; lra.
Qed.

(** A positive step always ends the loop. *)
Lemma positive_step_finite (g : gen) : 0 < gen_step g -> finite g.
Proof.
  intros Hs. destruct (archimedes (gen_stop g - gen_t g) (gen_step g) Hs) as [k Hk].
  destruct (collect_within k g Hs) as [l Hl]; [lra|].
  now exists (S k), l.
Qed.

(** A range that starts above its bound is empty. *)
Lemma collect_empty (g : gen) (fuel : nat) :
  gen_stop g < gen_t g -> collect (S fuel) g = Ret [].
Proof. intros H. simpl. now rewrite next_none. Qed.

(** A step that does not go up never leaves a range it is in. *)
Lemma collect_diverges (fuel : nat) :
  forall g : gen,
    gen_step g <= 0 -> gen_t g <= gen_stop g -> collect fuel g = Timeout.
Proof.
  induction fuel as [|fuel IH]; intros g Hs Hle; [reflexivity|].
  simpl. rewrite next_some by exact Hle.
  rewrite IH; [reflexivity | exact Hs | simpl; lra].
Qed.

Lemma take_diverges (n : nat) :
  forall g : gen,
    gen_step g <= 0 -> gen_t g <= gen_stop g -> List.length (take n g) = n.
Proof.
  induction n as [|n IH]; intros g Hs Hle; [reflexivity|].
  simpl. rewrite next_some by exact Hle. simpl. f_equal.
  apply IH; [exact Hs | simpl; lra].
Qed.

(** When the loop of [linrange] ends. *)
Lemma finite_iff (g : gen) :
  finite g <-> 0 < gen_step g \/ gen_stop g < gen_t g.
Proof.
  split.
  - intros (fuel & l & H).
    destruct (Qlt_le_dec 0 (gen_step g)) as [Hs|Hs]; [now left|].
    destruct (Qlt_le_dec (gen_stop g) (gen_t g)) as [Ht|Ht]; [now right|].
    rewrite collect_diverges in H by assumption. discriminate.
  - intros [Hs|Ht].
    + now apply positive_step_finite.
    + exists 1%nat, []. now apply collect_empty.
Qed.

Lemma collect_head (fuel : nat) (g : gen) (l : list Q) :
  collect fuel g = Ret l -> gen_t g <= gen_stop g -> exists l', l = gen_t g :: l'.
Proof.
  intros H Hle. destruct fuel as [|fuel]; [discriminate|].
  simpl in H. rewrite next_some in H by exact Hle.
  unfold fmap in H. apply bind_Ret_inv in H. destruct H as (l' & _ & Heq).
  inversion Heq. now exists l'.
Qed.

Lemma nth_error_last {A : Type} (l : list A) (a d : A) :
  nth_error (a :: l) (List.length l) = Some (last (a :: l) d).
Proof.
  revert a. induction l as [|b l IH]; intros a; [reflexivity|].
  cbn [List.length nth_error]. rewrite IH. reflexivity.
Qed.

(** An ascending run: it starts at [t], ends, and its last value is the
    largest [t + n * step] under the bound. *)
Lemma ascending_run (g : gen) (k : nat) :
  0 < gen_step g ->
  gen_t g + qnat k * gen_step g <= gen_stop g ->
  exists fuel l' n,
    collect fuel g = Ret (gen_t g :: l') /\
    (k <= n)%nat /\
    (forall d, last (gen_t g :: l') d == gen_t g + qnat n * gen_step g) /\
    gen_t g + qnat n * gen_step g <= gen_stop g /\
    gen_stop g < gen_t g + qnat (S n) * gen_step g.
Proof.
  intros Hs Hk.
  destruct (positive_step_finite g Hs) as (fuel & l & Hl).
  assert (Hle : gen_t g <= gen_stop g).
  { pose proof (qnat_nonneg k). nra. }
  destruct (collect_head _ _ _ Hl Hle) as [l' ->].
  exists fuel, l', (List.length l'). split; [exact Hl|].
  destruct (collect_spec _ _ _ Hl) as [Hnth Hb].
  assert (Hlast : forall d, last (gen_t g :: l') d
                            == gen_t g + qnat (List.length l') * gen_step g /\
                            last (gen_t g :: l') d <= gen_stop g).
  { intros d. apply Hnth. apply nth_error_last. }
  cbn [List.length] in Hb.
  assert (Hlt : qnat k < qnat (S (List.length l'))).
  { rewrite qnat_S in *. nra. }
  apply qnat_lt in Hlt.
  repeat split.
  - lia.
  - intros d. apply Hlast.
  - destruct (Hlast 0) as [E H]. rewrite <- E. exact H.
  - exact Hb.
Qed.

Section LinrangeFacts.

Variable NUMPREC : Q.

(** The adjustments when [stop] and [step] are given and agree in sign. *)
Lemma linrange_agreeing (start stop s : Q) (div : nat) :
  0 <= s * (stop - start) ->
  linrange NUMPREC start (Some stop) (Some s) div true = Gen start s (stop + NUMPREC).
Proof.
  intros H. unfold linrange.
  destruct (Qlt_le_dec (s * (stop - start)) 0); [lra | reflexivity].
Qed.

(** The effective step never points away from [stop], unless the range is
    a single point. *)
Lemma linrange_step_direction (start stop : Q) (step : option Q) (div : nat)
    (end_ : bool) :
  start < stop -> 0 <= gen_step (linrange NUMPREC start (Some stop) step div end_).
Proof.
  intros H. unfold linrange. destruct step as [s|]; cbn [gen_step].
  - destruct (Qlt_le_dec (s * (stop - start)) 0); nra.
  - apply Qle_shift_div_l.
    + pose proof (qnat_nonneg div). unfold qnat in *. lra.
    + lra.
Qed.

(** On a range that goes up, every value lies between [start] and
    [stop + NUMPREC]. *)
Lemma linrange_ascending_bounds (start stop : Q) (step : option Q) (div : nat)
    (end_ : bool) (t : Q) :
  0 <= NUMPREC ->
  start < stop ->
  yields (linrange NUMPREC start (Some stop) step div end_) t ->
  start <= t <= stop + NUMPREC.
Proof.
  intros He Hlt (n & Hin).
  pose proof (linrange_step_direction start stop step div end_ Hlt) as Hs.
  apply In_nth_error in Hin. destruct Hin as [i Hi].
  apply take_nth in Hi. destruct Hi as [Heq Hle].
  set (g := linrange NUMPREC start (Some stop) step div end_) in *.
  assert (Ht : gen_t g = start) by reflexivity.
  assert (Hstop : gen_stop g <= stop + NUMPREC).
  { unfold g, linrange. cbn [gen_stop]. unfold g in Hs.
    unfold linrange in Hs. cbn [gen_step] in Hs.
    destruct end_; lra. }
  rewrite Ht in Heq. pose proof (qnat_nonneg i). split; [nra | lra].
Qed.

(** X6.  On a range that goes down the effective step is negative, and the run
    is either empty or endless: the loop test [t <= stop] is the one of an
    ascending range. *)
Lemma linrange_descending (start stop : Q) (step : option Q) (div : nat)
    (end_ : bool) :
  stop < start ->
  (forall s, step = Some s -> ~ s == 0) ->
  gen_step (linrange NUMPREC start (Some stop) step div end_) < 0 /\
  ((forall fuel,
      collect (S fuel) (linrange NUMPREC start (Some stop) step div end_) = Ret []) \/
   (forall fuel,
      collect fuel (linrange NUMPREC start (Some stop) step div end_) = Timeout)).
Proof.
  intros Hlt Hs.
  assert (Hneg : gen_step (linrange NUMPREC start (Some stop) step div end_) < 0).
  { unfold linrange. destruct step as [s|]; cbn [gen_step].
    - specialize (Hs s eq_refl).
      destruct (Qlt_le_dec (s * (stop - start)) 0); nra.
    - pose proof (qnat_nonneg div).
      apply Qlt_shift_div_r; lra. }
  split; [exact Hneg|].
  set (g := linrange NUMPREC start (Some stop) step div end_) in *.
  destruct (Qlt_le_dec (gen_stop g) (gen_t g)) as [Hout|Hin].
  - left. intros fuel. now apply collect_empty.
  - right. intros fuel. apply collect_diverges; lra.
Qed.

End LinrangeFacts.

(** ** Claims on [linrange] *)

(** Runs [next] on a range whose test is decided by linear arithmetic. *)
Ltac run_range :=
  cbn [collect take];
  repeat (rewrite next_some by (cbn [gen_t gen_step gen_stop]; lra);
          cbn [fmap bind gen_t gen_step gen_stop collect take]);
  try (rewrite next_none by (cbn [gen_t gen_step gen_stop]; lra));
  cbn [fmap bind].

(** C4.  When only [div] is given, the step is [(stop - start) / (div + 1)]
    (with [start, stop = 0, start] when [stop] is omitted).  With a
    tolerance below the spacing, [linrange(0, 10, div=4)] yields
    0, 2, 4, 6, 8, 10, and with [end=False] it yields 0, 2, 4, 6, 8, all
    strictly before 10. *)
Theorem linrange_div_spacing (NUMPREC : Q) :
  0 <= NUMPREC -> NUMPREC < 2 ->
  (forall (start stop : Q) (div : nat) (end_ : bool),
     gen_step (linrange NUMPREC start (Some stop) None div end_)
     == (stop - start) / (qnat div + 1)) /\
  (forall (start : Q) (div : nat) (end_ : bool),
     gen_step (linrange NUMPREC start None None div end_)
     == (start - 0) / (qnat div + 1)) /\
  (exists fuel l,
     collect fuel (linrange NUMPREC 0 (Some 10) None 4 true) = Ret l /\
     seq_eq l [0; 2; 4; 6; 8; 10]) /\
  (exists fuel l,
     collect fuel (linrange NUMPREC 0 (Some 10) None 4 false) = Ret l /\
     seq_eq l [0; 2; 4; 6; 8] /\
     Forall (fun t => t < 10) l).
Proof.
  intros He0 He2. split; [|split; [|split]].
  - intros. reflexivity.
  - intros. reflexivity.
  - exists 7%nat. eexists. split.
    + unfold linrange. set (s := (10 - 0) / _).
      assert (Hs : s == 2) by reflexivity.
      run_range. reflexivity.
    + set (s := (10 - 0) / _). assert (Hs : s == 2) by reflexivity.
      repeat constructor; lra.
  - exists 6%nat. eexists. split.
    + unfold linrange. set (s := (10 - 0) / _).
      assert (Hs : s == 2) by reflexivity.
      run_range. reflexivity.
    + set (s := (10 - 0) / _). assert (Hs : s == 2) by reflexivity.
      split; repeat constructor; lra.
Qed.

Lemma linrange_div_spacing_witness :
  0 <= Sample.NUMPREC /\ Sample.NUMPREC < 2 /\
  exists fuel l,
    collect fuel (linrange Sample.NUMPREC 0 (Some 10) None 4 true) = Ret l /\
    seq_eq l [0; 2; 4; 6; 8; 10].
Proof.
  assert (H0 : 0 <= Sample.NUMPREC) by (unfold Sample.NUMPREC; lra).
  assert (H2 : Sample.NUMPREC < 2) by (unfold Sample.NUMPREC; lra).
  split; [exact H0 | split; [exact H2|]].
  exact (proj1 (proj2 (proj2 (linrange_div_spacing Sample.NUMPREC H0 H2)))).
Defined.

(** With a step of 0.3 and a tolerance below 0.2, [linrange(0, 1, 0.3)]
    yields 0, 0.3, 0.6, 0.9 and stops: 1.2 is over the bound. *)
Lemma linrange_step_03 (NUMPREC : Q) :
  0 <= NUMPREC -> NUMPREC < 0.2 ->
  exists fuel l,
    collect fuel (linrange NUMPREC 0 (Some 1) (Some 0.3) 0 true) = Ret l /\
    seq_eq l [0; 0.3; 0.6; 0.9].
Proof.
  intros He0 He2. exists 5%nat. eexists. split.
  - rewrite linrange_agreeing by lra. run_range. reflexivity.
  - repeat constructor; lra.
Qed.

(** The same runs on doubles.  The ascending examples end, on 10 and on
    0.3 + 0.3 + 0.3 (the double just below 0.9); the descending call goes on
    below its range. *)
Section Binary64Runs.

Import Floats.
Local Open Scope float_scope.
Local Set Warnings "-inexact-float".

Example binary64_div_4 :
  Binary64.take 20 (Binary64.linrange 0 (Some 10) None 4 true)
  = [0; 2; 4; 6; 8; 10].
Proof. vm_compute. reflexivity. Qed.

Example binary64_div_4_open :
  Binary64.take 20 (Binary64.linrange 0 (Some 10) None 4 false)
  = [0; 2; 4; 6; 8].
Proof. vm_compute. reflexivity. Qed.

Example binary64_step_03 :
  Binary64.take 20 (Binary64.linrange 0 (Some 1) (Some 0.3) 0 true)
  = [0; 0.3; 0.6; 0.3 + 0.3 + 0.3] /\
  (0.3 + 0.3 + 0.3 <? 0.9) = true /\
  (0.9 - (0.3 + 0.3 + 0.3) <? 2e-16) = true.
Proof. repeat split; vm_compute; reflexivity. Qed.

Example binary64_descending :
  Binary64.take 6 (Binary64.linrange 1 (Some 0) (Some 1) 0 false)
  = [1; 0; -1; -2; -3; -4].
Proof. vm_compute. reflexivity. Qed.

End Binary64Runs.

(** C5.  On the descending call [linrange(1, 0, step=1, end=False)] the
    stepper yields 1, 0, -1, ...: the value -1 is below [stop - NUMPREC],
    outside of the range from [start] down to [stop].  (On ascending
    ranges the bound holds, see [linrange_ascending_bounds].) *)
Theorem linrange_descending_leaves_range (NUMPREC : Q) :
  0 <= NUMPREC -> NUMPREC < 1 ->
  seq_eq (take 3 (linrange NUMPREC 1 (Some 0) (Some 1) 0 false)) [1; 0; - (1)] /\
  yields (linrange NUMPREC 1 (Some 0) (Some 1) 0 false) (- (1)) /\
  ~ within_range 1 0 NUMPREC (- (1)).
Proof.
  intros He0 He1.
  assert (Hg : linrange NUMPREC 1 (Some 0) (Some 1) 0 false
               = Gen 1 (- (1)) (0 - - (1) + NUMPREC)).
  { unfold linrange. destruct (Qlt_le_dec (1 * (0 - 1)) 0); [reflexivity | lra]. }
  assert (Ht : take 3 (Gen 1 (- (1)) (0 - - (1) + NUMPREC))
               = [1; 1 + - (1); 1 + - (1) + - (1)]).
  { run_range. reflexivity. }
  rewrite Hg. split; [|split].
  - rewrite Ht. repeat constructor; lra.
  - exists 3%nat. rewrite Ht. right. right. left. reflexivity.
  - intros [_ H]. assert (C : 0 - NUMPREC <= - (1)) by (apply H; lra). lra.
Qed.

Lemma linrange_descending_leaves_range_witness :
  0 <= Sample.NUMPREC /\ Sample.NUMPREC < 1 /\
  ~ within_range 1 0 Sample.NUMPREC (- (1)).
Proof.
  assert (H0 : 0 <= Sample.NUMPREC) by (unfold Sample.NUMPREC; lra).
  assert (H1 : Sample.NUMPREC < 1) by (unfold Sample.NUMPREC; lra).
  split; [exact H0 | split; [exact H1|]].
  exact (proj2 (proj2 (linrange_descending_leaves_range Sample.NUMPREC H0 H1))).
Defined.

(** C6.  The call [linrange(1, 0, end=False)] has the nonzero step -1 and
    never ends: no amount of fuel exhausts it, and it yields [n] values for
    every [n]. *)
Theorem linrange_descending_never_ends (NUMPREC : Q) :
  0 <= NUMPREC ->
  ~ gen_step (linrange NUMPREC 1 (Some 0) None 0 false) == 0 /\
  (forall fuel, collect fuel (linrange NUMPREC 1 (Some 0) None 0 false) = Timeout) /\
  ~ finite (linrange NUMPREC 1 (Some 0) None 0 false) /\
  (forall n, List.length (take n (linrange NUMPREC 1 (Some 0) None 0 false)) = n).
Proof.
  intros He0.
  set (g := linrange NUMPREC 1 (Some 0) None 0 false).
  assert (Hs : gen_step g == - (1)) by reflexivity.
  assert (Ht : gen_t g == 1) by reflexivity.
  assert (Hb : gen_stop g == 1 + NUMPREC).
  { unfold g, linrange. cbn [gen_stop]. 
    set (s := (0 - 1) / _). assert (E : s == - (1)) by reflexivity. lra. }
  split; [|split; [|split]].
  - lra.
  - intros fuel. apply collect_diverges; lra.
  - rewrite finite_iff. lra.
  - intros n. apply take_diverges; lra.
Qed.

Lemma linrange_descending_never_ends_witness :
  0 <= Sample.NUMPREC /\
  ~ finite (linrange Sample.NUMPREC 1 (Some 0) None 0 false).
Proof.
  assert (H0 : 0 <= Sample.NUMPREC) by (unfold Sample.NUMPREC; lra).
  split; [exact H0|].
  exact (proj1 (proj2 (proj2 (linrange_descending_never_ends Sample.NUMPREC H0)))).
Defined.

(** C8.  A step whose sign disagrees with the direction from [start] to
    [stop] is negated: the call builds the same generator as the call with
    the opposite step, hence yields the same values and ends (or not) the
    same way; the adjustment itself cannot fail. *)
Theorem linrange_flips_step (NUMPREC start stop s : Q) (div : nat) (end_ : bool) :
  s * (stop - start) < 0 ->
  linrange NUMPREC start (Some stop) (Some s) div end_
  = linrange NUMPREC start (Some stop) (Some (- s)) div end_ /\
  gen_step (linrange NUMPREC start (Some stop) (Some s) div end_) = - s /\
  (forall n, take n (linrange NUMPREC start (Some stop) (Some s) div end_)
             = take n (linrange NUMPREC start (Some stop) (Some (- s)) div end_)) /\
  (forall fuel, collect fuel (linrange NUMPREC start (Some stop) (Some s) div end_)
                = collect fuel (linrange NUMPREC start (Some stop) (Some (- s)) div end_)).
Proof.
  intros H.
  assert (E : linrange NUMPREC start (Some stop) (Some s) div end_
              = linrange NUMPREC start (Some stop) (Some (- s)) div end_).
  { unfold linrange.
    destruct (Qlt_le_dec (s * (stop - start)) 0) as [_|C]; [|lra].
    destruct (Qlt_le_dec (- s * (stop - start)) 0) as [C|_]; [lra|].
    reflexivity. }
  split; [exact E|]. split.
  - unfold linrange. cbn [gen_step].
    destruct (Qlt_le_dec (s * (stop - start)) 0) as [_|C]; [reflexivity | lra].
  - split; intros; now rewrite E.
Qed.

Lemma linrange_flips_step_witness :
  - (2) * (10 - 0) < 0 /\
  linrange Sample.NUMPREC 0 (Some 10) (Some (- (2))) 0 true
  = linrange Sample.NUMPREC 0 (Some 10) (Some (- - (2))) 0 true.
Proof.
  assert (H : - (2) * (10 - 0) < 0) by lra.
  split; [exact H|].
  exact (proj1 (linrange_flips_step Sample.NUMPREC 0 10 (- (2)) 0 true H)).
Defined.

(** ** Where exceptions come from *)

Lemma collect_raises_nothing (P : exn -> Prop) (fuel : nat) :
  forall g, raises_only P (collect fuel g).
Proof.
  induction fuel as [|fuel IH]; intros g e H; [discriminate|].
  simpl in H. destruct (next g) as [[t g']|]; [|discriminate].
  unfold fmap in H. apply bind_Raise_inv in H. destruct H as [H|(a & _ & H)].
  - now apply (IH g').
  - discriminate.
Qed.

(** ** Lists *)

Lemma last_default {A : Type} (l : list A) (a d d' : A) :
  last (a :: l) d = last (a :: l) d'.
Proof.
  revert a. induction l as [|b l IH]; intros a; [reflexivity|].
  change (last (b :: l) d = last (b :: l) d'). apply IH.
Qed.

Lemma last_app_cons {A : Type} (l l' : list A) (a d d' : A) :
  last (l ++ a :: l') d = last (a :: l') d'.
Proof.
  induction l as [|b l IH]; [apply last_default|].
  destruct l as [|c l]; exact IH.
Qed.

Lemma last_map_cons {A B : Type} (f : A -> B) (l : list A) (a d : A) (d' : B) :
  last (map f (a :: l)) d' = f (last (a :: l) d).
Proof.
  revert a. induction l as [|b l IH]; intros a; [reflexivity|].
  change (last (map f (b :: l)) d' = f (last (b :: l) d)). apply IH.
Qed.

Lemma last_cons {A : Type} (l : list A) (a d : A) :
  last (a :: l) d = last l a.
Proof.
  destruct l as [|b l]; [reflexivity|].
  change (last (b :: l) d = last (b :: l) a). apply last_default.
Qed.

Lemma last_item_app_map {A B : Type} (f : A -> B) (l : list B) (a : A)
    (l' : list A) :
  last_item (l ++ map f (a :: l')) = Ret (f (last (a :: l') a)).
Proof.
  destruct l as [|b l]; unfold last_item.
  - cbn [app map]. f_equal.
    rewrite <- (last_cons (map f l') (f a) (f a)).
    apply (last_map_cons f l' a a).
  - cbn [app map]. f_equal. rewrite (last_app_cons _ _ _ _ (f a)).
    apply (last_map_cons f l' a a).
Qed.

Lemma step_positive (pi : Q) (div : nat) : 0 < pi -> 0 < 2 * pi / (qnat div + 1).
Proof.
  intros Hpi. pose proof (qnat_nonneg div). apply Qlt_shift_div_l; lra.
Qed.

Lemma two_turns_steps (pi : Q) (div : nat) :
  0 < pi -> qnat (2 * (div + 1)) * (2 * pi / (qnat div + 1)) == 4 * pi.
Proof.
  intros Hpi. pose proof (qnat_nonneg div).
  assert (E : qnat (2 * (div + 1)) == 2 * (qnat div + 1)).
  { unfold qnat. rewrite Nat2Z.inj_mul, Nat2Z.inj_add, inject_Z_mult, inject_Z_plus.
    reflexivity. }
  rewrite E. field. lra.
Qed.

(** The two turns of an end transition: the run from [t0] to [t0 + 4 pi]
    ends on [t0 + n * step] with [n * step] between [4 pi] and
    [4 pi + NUMPREC], and on [t0 + 4 pi] when the tolerance is below the
    step. *)
Lemma two_turns_run (NUMPREC pi t0 : Q) (div : nat) :
  0 <= NUMPREC -> 0 < pi ->
  exists fuel l' n,
    collect fuel (linrange NUMPREC t0 (Some (t0 + 4 * pi))
                    (Some (2 * pi / (qnat div + 1))) 0 true)
    = Ret (t0 :: l') /\
    (forall d, last (t0 :: l') d == t0 + qnat n * (2 * pi / (qnat div + 1))) /\
    4 * pi <= qnat n * (2 * pi / (qnat div + 1)) <= 4 * pi + NUMPREC /\
    (NUMPREC < 2 * pi / (qnat div + 1) ->
     qnat n * (2 * pi / (qnat div + 1)) == 4 * pi).
Proof.
  intros He Hpi.
  pose proof (step_positive pi div Hpi) as Hs.
  pose proof (two_turns_steps pi div Hpi) as Hk.
  set (s := 2 * pi / (qnat div + 1)) in *.
  rewrite linrange_agreeing by nra.
  destruct (ascending_run (Gen t0 s (t0 + 4 * pi + NUMPREC)) (2 * (div + 1)))
    as (fuel & l' & n & Hrun & Hkn & Hlast & Hle & Hlt).
  - exact Hs.
  - cbn [gen_t gen_step gen_stop]. lra.
  - cbn [gen_t gen_step gen_stop] in *.
    exists fuel, l', n. split; [exact Hrun|]. split; [exact Hlast|].
    pose proof (qnat_le _ _ Hkn) as Hkq. split; [split|].
    + nra.
    + lra.
    + intros Hsmall.
      assert (Hn : qnat n < qnat (S (2 * (div + 1)))).
      { rewrite qnat_S. nra. }
      apply qnat_lt in Hn. assert (n = (2 * (div + 1))%nat) by lia. subst n. exact Hk.
Qed.

(** Division by 2 as a multiplication, for linear arithmetic. *)
Ltac qhalf := unfold Qdiv; repeat change (/ 2) with (1 # 2).

(** ** The compression spring *)

Section Compression.

Variables NUMPREC pi : Q.
Variables cos sin : Q -> Q.
Variable curve_resolution : Q -> Q -> nat.

(** Where the compression spring returns: for [d/2 > thickness > 0] and a
    body range that goes up ([4 * thickness <= length]) or is empty (it goes
    down by more than the tolerance),
    [coilspring_compression(length, d, thickness, solid=False)] returns a
    path whose first point has [z == -length/2] and whose last point has
    [z] within [NUMPREC * thickness / (2 pi)] above [length/2]; it is
    exactly [length/2] when the tolerance is below the angular step.  The
    last point is that of exact additions: on doubles the last turn can
    lose its last value. *)
Lemma compression_endpoints (length d thickness : Q) :
  0 <= NUMPREC -> 0 < pi ->
  0 < thickness -> thickness < d / 2 ->
  4 * thickness <= length \/
  2 * pi * (length - 4 * thickness) / (d / 2 - thickness) < - NUMPREC ->
  exists fuel path p q,
    coilspring_compression NUMPREC pi cos sin curve_resolution
      fuel length (Some d) (Some thickness) false = Ret (Path path) /\
    first_item (points path) = Ret p /\
    last_item (points path) = Ret q /\
    vz p == - length / 2 /\
    0 <= vz q - length / 2 <= NUMPREC * thickness / (2 * pi) /\
    (NUMPREC < 2 * pi / (qnat (curve_resolution (d * pi) (2 * pi)) + 1) ->
     vz q == length / 2).
Proof.
  intros He Hpi Hth Hr Hbody.
  assert (Hr' : thickness < d * (1 # 2)) by exact Hr.
  assert (Hd : ~ d == 0) by lra.
  assert (Hth0 : ~ thickness == 0) by lra.
  assert (Hrpos : 0 < d / 2 - thickness) by (qhalf; lra).
  assert (Hr0 : ~ d / 2 - thickness == 0) by lra.
  unfold coilspring_compression.
  rewrite (or_default_given d) by exact Hd.
  rewrite (or_default_given thickness) by exact Hth0.
  cbv zeta.
  set (div := curve_resolution (d * pi) (2 * pi)).
  set (s := 2 * pi / (qnat div + 1)).
  set (r := d / 2 - thickness) in *.
  pose proof (step_positive pi div Hpi) as Hs. fold s in Hs.
  destruct (two_turns_run NUMPREC pi 0 div He Hpi)
    as (fuel1 & l1 & n1 & Hrun1 & Hlast1 & Hn1 & _).
  fold s in Hrun1, Hlast1, Hn1.
  set (t1 := after_loop (0 :: l1) 0).
  rewrite (pydiv_Ret _ r Hr0).
  set (turns := 2 * pi * (length - 4 * thickness) / r) in *.
  assert (Hrun2 : exists fuel2 ts2,
             collect fuel2 (linrange NUMPREC t1 (Some (t1 + turns)) (Some s) 0 true)
             = Ret ts2).
  { destruct Hbody as [HL|Hshort].
    - assert (Hturns : 0 <= turns).
      { unfold turns. apply Qle_shift_div_l; [exact Hrpos | nra]. }
      destruct (ascending_run (Gen t1 s (t1 + turns + NUMPREC)) 0)
        as (fuel2 & l2 & n2 & Hrun2 & _).
      { exact Hs. }
      { cbn [gen_t gen_step gen_stop]. rewrite qnat_0. lra. }
      cbn [gen_t] in Hrun2.
      rewrite <- (linrange_agreeing NUMPREC t1 (t1 + turns) s 0) in Hrun2 by nra.
      now exists fuel2, (t1 :: l2).
    - exists 1%nat, []. unfold linrange.
      destruct (Qlt_le_dec (s * (t1 + turns - t1)) 0) as [_|C]; [|nra].
      apply collect_empty. cbn [gen_t gen_stop]. lra. }
  destruct Hrun2 as (fuel2 & ts2 & Hrun2).
  set (t2 := after_loop ts2 t1).
  destruct (two_turns_run NUMPREC pi t2 div He Hpi)
    as (fuel3 & l3 & n3 & Hrun3 & Hlast3 & Hn3 & Hexact).
  fold s in Hrun3, Hlast3, Hn3, Hexact.
  exists (Nat.max fuel1 (Nat.max fuel2 fuel3)).
  rewrite (collect_more_fuel _ _ _ Hrun1) by lia. cbn [bind].
  fold t1.
  rewrite (collect_more_fuel _ _ _ Hrun2) by lia. cbn [bind].
  fold t2.
  rewrite (collect_more_fuel _ _ _ Hrun3) by lia. cbn [bind negb].
  eexists. eexists. eexists.
  split; [reflexivity|].
  cbn [points wire_add].
  split; [cbn [map app first_item]; reflexivity|].
  split; [rewrite last_item_app_map; reflexivity|].
  cbn [vz].
  assert (Hk : 0 < / (2 * pi)) by (apply Qinv_lt_0_compat; lra).
  assert (Hkk : / (2 * pi) * (2 * pi) == 1) by (field; lra).
  specialize (Hlast3 t2).
  split; [|split].
  - qhalf. set (k := / (2 * pi)) in *. ring.
  - rewrite Hlast3. qhalf. set (k := / (2 * pi)) in *.
    set (w := qnat n3 * s) in *.
    assert (Hk2 : 4 * pi * k == 2) by lra.
    assert (Hlo : 0 <= (w - 4 * pi) * k) by nra.
    assert (Hhi : (w - 4 * pi) * k <= NUMPREC * k) by nra.
    assert (E : 0.5 * length - 2 * thickness + (t2 + w - t2) * k * thickness
                - length * (1 # 2) == (w - 4 * pi) * k * thickness).
    { transitivity (w * k * thickness - 4 * pi * k * thickness); [|ring].
      rewrite Hk2. ring. }
    rewrite E. split.
    + apply Qmult_le_0_compat; lra.
    + setoid_replace (NUMPREC * thickness * k) with (NUMPREC * k * thickness) by ring.
      apply Qmult_le_compat_r; lra.
  - intros Hsmall. specialize (Hexact Hsmall).
    rewrite Hlast3, Hexact. field. lra.
Qed.

(** Where it does not: when the body range goes down by no more than the
    tolerance, the loop of [linrange] is entered with a negative step and
    never left. *)
Lemma compression_window (fuel : nat) (length d thickness : Q) (solid : bool) :
  0 < pi ->
  0 < thickness -> thickness < d / 2 ->
  2 * pi * (length - 4 * thickness) / (d / 2 - thickness) < 0 ->
  - NUMPREC <= 2 * pi * (length - 4 * thickness) / (d / 2 - thickness) ->
  coilspring_compression NUMPREC pi cos sin curve_resolution
    fuel length (Some d) (Some thickness) solid = Timeout.
Proof.
  intros Hpi Hth Hr Hneg Hwin.
  assert (Hr' : thickness < d * (1 # 2)) by exact Hr.
  assert (Hd : ~ d == 0) by lra.
  assert (Hth0 : ~ thickness == 0) by lra.
  assert (Hrpos : 0 < d / 2 - thickness) by (qhalf; lra).
  assert (Hr0 : ~ d / 2 - thickness == 0) by lra.
  unfold coilspring_compression.
  rewrite (or_default_given d) by exact Hd.
  rewrite (or_default_given thickness) by exact Hth0.
  cbv zeta.
  set (div := curve_resolution (d * pi) (2 * pi)).
  set (s := 2 * pi / (qnat div + 1)).
  set (r := d / 2 - thickness) in *.
  pose proof (step_positive pi div Hpi) as Hs. fold s in Hs.
  destruct (collect fuel (linrange NUMPREC 0 (Some (0 + 4 * pi)) (Some s) 0 true))
    as [ts| e |] eqn:Hrun1.
  - cbn [bind]. set (t1 := after_loop ts 0).
    rewrite (pydiv_Ret _ r Hr0). cbn [bind].
    set (turns := 2 * pi * (length - 4 * thickness) / r) in *.
    assert (Hg : linrange NUMPREC t1 (Some (t1 + turns)) (Some s) 0 true
                 = Gen t1 (- s) (t1 + turns + NUMPREC)).
    { unfold linrange.
      destruct (Qlt_le_dec (s * (t1 + turns - t1)) 0) as [_|C]; [reflexivity|nra]. }
    rewrite Hg, collect_diverges; [reflexivity | |]; cbn [gen_t gen_step gen_stop]; lra.
  - exfalso. apply (collect_raises_nothing (fun _ => False) _ _ _ Hrun1).
  - reflexivity.
Qed.

(** C1.  The call
    [coilspring_compression(4 - 1e-14, 10, 1, solid=False)] has
    [d/2 > thickness > 0] and never returns: its body range goes down by
    less than the tolerance (1e-13 or more), and the loop of [linrange]
    does not leave it.  Whatever the fuel, the run is not finished. *)
Theorem compression_body_never_ends (fuel : nat) :
  (1 # 10000000000000) <= NUMPREC -> 0 < pi -> pi <= 4 ->
  0 < 1 /\ 1 < 10 / 2 /\
  coilspring_compression NUMPREC pi cos sin curve_resolution
    fuel (4 - (1 # 100000000000000)) (Some 10) (Some 1) false = Timeout.
Proof.
  intros He Hpi Hpi4.
  split; [reflexivity|]. split; [reflexivity|].
  assert (Hturns : 2 * pi * (4 - (1 # 100000000000000) - 4 * 1) / (10 / 2 - 1)
                   == - (pi * (1 # 200000000000000))) by field.
  apply compression_window; try reflexivity; try assumption; rewrite Hturns; lra.
Qed.

End Compression.

Lemma compression_body_never_ends_witness :
  (1 # 10000000000000) <= Sample.NUMPREC /\ 0 < Sample.pi /\ Sample.pi <= 4 /\
  coilspring_compression Sample.NUMPREC Sample.pi Sample.cos Sample.sin
    Sample.curve_resolution 1000 (4 - (1 # 100000000000000)) (Some 10) (Some 1)
    false = Timeout.
Proof.
  assert (H1 : (1 # 10000000000000) <= Sample.NUMPREC) by (unfold Sample.NUMPREC; lra).
  assert (H2 : 0 < Sample.pi) by (unfold Sample.pi; lra).
  assert (H3 : Sample.pi <= 4) by (unfold Sample.pi; lra).
  repeat (split; [assumption|]).
  exact (proj2 (proj2 (compression_body_never_ends Sample.NUMPREC Sample.pi
                         Sample.cos Sample.sin Sample.curve_resolution 1000
                         H1 H2 H3))).
Defined.

Example compression_returns :
  0 <= Sample.NUMPREC /\ 0 < Sample.pi /\
  exists fuel path p q,
    coilspring_compression Sample.NUMPREC Sample.pi Sample.cos Sample.sin
      Sample.curve_resolution fuel 20 (Some 4) (Some 0.4) false
    = Ret (Path path) /\
    first_item (points path) = Ret p /\ last_item (points path) = Ret q /\
    vz p == - (10) /\ vz q == 10.
Proof.
  assert (H1 : 0 <= Sample.NUMPREC) by (unfold Sample.NUMPREC; lra).
  assert (H2 : 0 < Sample.pi) by (unfold Sample.pi; lra).
  split; [exact H1|]. split; [exact H2|].
  destruct (compression_endpoints Sample.NUMPREC Sample.pi Sample.cos Sample.sin
              Sample.curve_resolution 20 4 0.4 H1 H2)
    as (fuel & path & p & q & Hrun & Hp & Hq & Hz & _ & Hexact);
    [reflexivity | reflexivity | left; discriminate |].
  exists fuel, path, p, q. repeat split; try assumption.
  - rewrite Hz. reflexivity.
  - rewrite Hexact; reflexivity.
Qed.

(** ** The compression spring without a radius *)

Section Springs.

Variables NUMPREC pi : Q.
Variables cos sin : Q -> Q.
Variable curve_resolution : Q -> Q -> nat.

(** With [thickness = d/2] the radius and the body pitch are zero: the
    compression spring fails on the division by the pitch, after the top
    turns were computed. *)
Lemma compression_zero_radius (length d thickness : Q) (solid : bool) :
  0 <= NUMPREC -> 0 < pi ->
  ~ thickness == 0 -> thickness == d / 2 ->
  exists fuel,
    coilspring_compression NUMPREC pi cos sin curve_resolution
      fuel length (Some d) (Some thickness) solid = Raise ZeroDivisionError.
Proof.
  intros He Hpi Hth Hr.
  assert (Hd : ~ d == 0).
  { intros C. apply Hth. rewrite Hr, C. reflexivity. }
  unfold coilspring_compression.
  rewrite (or_default_given d) by exact Hd.
  rewrite (or_default_given thickness) by exact Hth.
  cbv zeta.
  destruct (two_turns_run NUMPREC pi 0 (curve_resolution (d * pi) (2 * pi)) He Hpi)
    as (fuel & l & n & Hrun & _).
  exists fuel. rewrite Hrun. cbn [bind].
  rewrite pydiv_zero; [reflexivity|]. rewrite Hr. ring.
Qed.

End Springs.

(** C2, a call that is accepted: with [thickness = 3 >= d/2 = 2] the
    compression spring returns a path, wound on the radius -1. *)
Lemma compression_accepts_negative_radius :
  4 / 2 <= 3 /\
  exists w p,
    coilspring_compression Sample.NUMPREC Sample.pi Sample.cos Sample.sin
      Sample.curve_resolution 100 20 (Some 4) (Some 3) false = Ret (Path w) /\
    first_item (points w) = Ret p /\
    vx p == - (1).
Proof.
  split; [discriminate|].
  eexists. eexists. split; [vm_compute; reflexivity|].
  split; vm_compute; reflexivity.
Qed.

(** ** Merging coincident points *)

Lemma veqb_veq (a b : vec3) : veqb a b = true -> veq a b.
Proof.
  unfold veqb, veq. rewrite !andb_true_iff, !Qeq_bool_iff. tauto.
Qed.

Lemma veq_refl (a : vec3) : veq a a.
Proof. unfold veq. repeat split; reflexivity. Qed.

Lemma axis_dist2_veq (a b : vec3) : veq a b -> axis_dist2 a == axis_dist2 b.
Proof. intros (Hx & Hy & _). unfold axis_dist2. now rewrite Hx, Hy. Qed.

Lemma merge_from_head (l : list vec3) (p : vec3) :
  exists l', merge_from p l = p :: l'.
Proof.
  induction l as [|q l IH]; [now exists []|].
  simpl. destruct (veqb p q); [exact IH | eauto].
Qed.

(** Merging keeps the last point, up to [==] on its coordinates. *)
Lemma merge_from_last (l : list vec3) :
  forall p d, veq (last (merge_from p l) d) (last (p :: l) d).
Proof.
  induction l as [|q l IH]; intros p d; [apply veq_refl|].
  cbn [merge_from]. destruct (veqb p q) eqn:E.
  - specialize (IH p d). destruct l as [|q' l].
    + simpl in *. now apply veqb_veq.
    + exact IH.
  - destruct (merge_from_head l q) as [l' Hl'].
    specialize (IH q d). rewrite Hl' in *. exact IH.
Qed.

Lemma mergeclose_first (w : Wire) (p : vec3) :
  first_item (points w) = Ret p -> first_item (points (mergeclose w)) = Ret p.
Proof.
  unfold mergeclose. destruct (points w) as [|a l] eqn:E; [discriminate|].
  cbn [first_item points]. intros H. destruct (merge_from_head l a) as [l' ->].
  exact H.
Qed.

Lemma mergeclose_last (w : Wire) (q : vec3) :
  last_item (points w) = Ret q ->
  exists q', last_item (points (mergeclose w)) = Ret q' /\ veq q' q.
Proof.
  unfold mergeclose. destruct (points w) as [|a l] eqn:E; [discriminate|].
  cbn [last_item points]. intros H. inversion H; subst.
  destruct (merge_from_head l a) as [l' Hl'].
  pose proof (merge_from_last l a a) as Hlast. rewrite Hl' in *.
  exists (last l' a). split; [reflexivity|].
  rewrite <- (last_cons l' a a), <- (last_cons l a a). exact Hlast.
Qed.

Lemma last_item_app {A : Type} (l l' : list A) (a : A) :
  last_item (l ++ a :: l') = Ret (last (a :: l') a).
Proof.
  destruct l as [|b l]; unfold last_item; cbn [app]; f_equal.
  - symmetry. apply last_cons.
  - apply last_app_cons.
Qed.

(** ** The torsion spring *)

(** The mirror applied to the first arm, [scaledir(Z,-1) * scaledir(X,-1)],
    negates [x] and [z]. *)
Lemma mirror_apply (v : vec3) :
  veq (mat_apply (mat_mul (scaledir vZ (- (1))) (scaledir vX (- (1)))) v)
      (Vec3 (- vx v) (vy v) (- vz v)).
Proof.
  destruct v as [x y z]. unfold veq, mat_apply, mat_mul, mat_col, scaledir.
  cbn [row0 row1 row2]. unfold dot, vadd, vscale, vX, vY, vZ.
  cbn [vx vy vz]. repeat split; ring.
Qed.

(** A turn about the axis keeps the distance to the axis, as soon as the
    squares of [cos] and [sin] add up to 1 at the angle. *)
Lemma rotation_keeps_axis_distance (cos sin : Q -> Q) (a : Q) (v : vec3) :
  cos a * cos a + sin a * sin a == 1 ->
  axis_dist2 (mat_apply (angleAxis_Z cos sin a) v) == axis_dist2 v.
Proof.
  intros H. destruct v as [x y z].
  unfold axis_dist2, mat_apply, angleAxis_Z, dot. cbn [vx vy vz row0 row1 row2].
  transitivity ((cos a * cos a + sin a * sin a) * (x * x + y * y)); [ring|].
  rewrite H. ring.
Qed.

Section Torsion.
Variables NUMPREC pi : Q.
Variables cos sin : Q -> Q.
Variable curve_resolution : Q -> Q -> nat.

(** C3.  For [coilspring_torsion(arm=5)] with the defaults (length 2.5,
    diameter 5, thickness 0.5, hook -2.5, hence coil radius 2), the first and
    the last point of the path lie at squared distance [5^2 + 2^2 = 29] of
    the coil axis: the arm leaves the coil along its tangent, [arm] is its
    extent along that tangent and the coil radius is its offset from the
    axis. *)
Theorem torsion_default_endpoints :
  0 <= NUMPREC -> 0 < pi ->
  sin 0 == 0 -> cos 0 == 1 ->
  cos (pi - radians pi 45) * cos (pi - radians pi 45)
  + sin (pi - radians pi 45) * sin (pi - radians pi 45) == 1 ->
  exists fuel w p q,
    coilspring_torsion NUMPREC pi cos sin curve_resolution
      fuel 5 None None None None None false = Ret (Path w) /\
    first_item (points w) = Ret p /\
    last_item (points w) = Ret q /\
    axis_dist2 p == 29 /\
    axis_dist2 q == 29.
Proof.
  intros He Hpi Hsin Hcos Hunit.
  unfold coilspring_torsion.
  cbn [or_default].
  set (a := pi - radians pi 45) in *.
  cbv zeta.
  set (div := curve_resolution (5 * pi) (2 * pi)).
  set (s := 2 * pi / (qnat div + 1)).
  pose proof (step_positive pi div Hpi) as Hs. fold s in Hs.
  rewrite pydiv_Ret by (intros C; discriminate C).
  cbn [bind].
  set (ncoil := ceil (5 * 0.5 / (5 * 0.1)) + a / (2 * pi)).
  assert (Hn : ncoil == 43 # 8).
  { unfold ncoil, a, radians. 
    assert (E : ceil (5 * 0.5 / (5 * 0.1)) == 5) by reflexivity.
    rewrite E. field. lra. }
  assert (Hasc : 0 <= s * (2 * pi * ncoil - 0)).
  { rewrite Hn. apply Qmult_le_0_compat; lra. }
  destruct (ascending_run (Gen 0 s (2 * pi * ncoil + NUMPREC)) 0)
    as (fuel & l' & _ & Hrun & _).
  { exact Hs. }
  { cbn [gen_t gen_step gen_stop]. rewrite qnat_0, Hn. lra. }
  cbn [gen_t] in Hrun.
  rewrite <- (linrange_agreeing NUMPREC 0 (2 * pi * ncoil) s 0 Hasc) in Hrun.
  exists fuel. rewrite Hrun. cbn [bind points map first_item negb].
  let v := eval vm_compute in (torsion_arm 5 (5 * 0.1) (- (5 * 0.5))) in
  change (torsion_arm 5 (5 * 0.1) (- (5 * 0.5))) with v.
  cbn [transform flip points groups map rev app transformer].
  match goal with
  | |- context [Translate ?c] => set (c0 := c)
  end.
  match goal with
  | |- context [mergeclose ?w] => set (W := w)
  end.
  set (p := vadd (Vec3 5 0 (- 2.5)) c0).
  set (q := mat_apply (angleAxis_Z cos sin a)
              (mat_apply (mat_mul (scaledir vZ (- (1))) (scaledir vX (- (1)))) p)).
  assert (Hfirst : first_item (points W) = Ret p) by reflexivity.
  assert (Hlast : last_item (points W) = Ret q).
  { unfold W. cbn [wire_add transform flip points map rev app transformer].
    rewrite !app_comm_cons, last_item_app. reflexivity. }
  destruct (mergeclose_last W q Hlast) as (q' & Hq' & Hveq).
  exists (mergeclose W), p, q'.
  split; [reflexivity|].
  split; [now apply mergeclose_first|].
  split; [exact Hq'|].
  split.
  - unfold p, c0, axis_dist2, vadd. cbn [vx vy vz].
    rewrite Hsin, Hcos. reflexivity.
  - rewrite (axis_dist2_veq _ _ Hveq). unfold q.
    rewrite (rotation_keeps_axis_distance cos sin a _ Hunit).
    rewrite (axis_dist2_veq _ _ (mirror_apply p)).
    unfold p, c0, axis_dist2, vadd. cbn [vx vy vz].
    rewrite Hsin, Hcos. reflexivity.
Qed.
End Torsion.

Lemma torsion_default_endpoints_witness :
  0 <= Sample.NUMPREC /\ 0 < Sample.pi /\
  Sample.sin 0 == 0 /\ Sample.cos 0 == 1 /\
  Sample.cos (Sample.pi - radians Sample.pi 45)
  * Sample.cos (Sample.pi - radians Sample.pi 45)
  + Sample.sin (Sample.pi - radians Sample.pi 45)
    * Sample.sin (Sample.pi - radians Sample.pi 45) == 1 /\
  exists fuel w p,
    coilspring_torsion Sample.NUMPREC Sample.pi Sample.cos Sample.sin
      Sample.curve_resolution fuel 5 None None None None None false
    = Ret (Path w) /\
    first_item (points w) = Ret p /\ axis_dist2 p == 29.
Proof.
  assert (H1 : 0 <= Sample.NUMPREC) by (unfold Sample.NUMPREC; lra).
  assert (H2 : 0 < Sample.pi) by (unfold Sample.pi; lra).
  assert (H3 : Sample.sin 0 == 0) by reflexivity.
  assert (H4 : Sample.cos 0 == 1) by reflexivity.
  assert (H5 : Sample.cos (Sample.pi - radians Sample.pi 45)
               * Sample.cos (Sample.pi - radians Sample.pi 45)
               + Sample.sin (Sample.pi - radians Sample.pi 45)
                 * Sample.sin (Sample.pi - radians Sample.pi 45) == 1)
    by reflexivity.
  repeat (split; [assumption|]).
  destruct (torsion_default_endpoints Sample.NUMPREC Sample.pi Sample.cos
              Sample.sin Sample.curve_resolution H1 H2 H3 H4 H5)
    as (fuel & w & p & q & Hrun & Hp & _ & Hd & _).
  exists fuel, w, p. auto.
Defined.

(** C3, the distance that is not the arm: on the sample environment the
    first point of the default torsion spring is at squared distance 29 of
    the axis, which is not within 1/10 of the distance 5. *)
Lemma torsion_default_arm_not_radial :
  exists w p,
    coilspring_torsion Sample.NUMPREC Sample.pi Sample.cos Sample.sin
      Sample.curve_resolution 100 5 None None None None None false
    = Ret (Path w) /\
    first_item (points w) = Ret p /\
    axis_dist2 p == 29 /\
    ~ at_axis_distance p 5 (1 # 10).
Proof.
  eexists. eexists. split; [vm_compute; reflexivity|].
  split; [vm_compute; reflexivity|]. split; [vm_compute; reflexivity|].
  unfold at_axis_distance. intros [_ H]. revert H. vm_compute. intros H.
  apply H. reflexivity.
Qed.


(** ** The tension spring *)

Lemma collect_first (fuel : nat) (g : gen) (t : Q) (l : list Q) :
  collect fuel g = Ret (t :: l) -> t = gen_t g.
Proof.
  destruct fuel as [|fuel]; [discriminate|]. simpl.
  destruct (next g) as [[t0 g']|] eqn:E; [|discriminate].
  apply next_inv in E. destruct E as (-> & _ & _).
  unfold fmap. intros H. apply bind_Ret_inv in H. destruct H as (l' & _ & H).
  now inversion H.
Qed.

Section Tension.

Variable fl : Q -> Q.
Variables NUMPREC pi : Q.
Variables cos sin : Q -> Q.
Variable curve_resolution : Q -> Q -> nat.

(** The quantities that [coilspring_tension] derives, every operation
    rounded by [fl]. *)
Lemma tension_derived_Ret (length : Q) (d_arg thickness_arg : option Q)
    (d thickness : Q) :
  d = or_default d_arg (fl (length * fl 0.2)) ->
  thickness = or_default thickness_arg (fl (d * fl 0.1)) ->
  ~ thickness == 0 ->
  tension_derived fl length d_arg thickness_arg
  = Ret (mkTension d thickness
           (fl (fl (d / 2) - thickness))
           (fl (floor (fl (fl (length - fl (2 * fl (fl (d / 2) - thickness)))
                           / thickness)) - 0.5))
           (fl (fl (0.5 * length) - fl (fl (d / 2) - thickness)))).
Proof.
  intros Ed Eth Hth. unfold tension_derived. cbv zeta. rewrite <- Ed, <- Eth.
  rewrite pydiv_Ret by exact Hth. reflexivity.
Qed.

(** The run of the coil for a count that is not negative: it ends, and
    starts with the angle 0. *)
Lemma tension_coil_run (d n : Q) :
  0 <= NUMPREC -> 0 < pi -> 0 <= n ->
  exists fuel l',
    collect fuel
      (linrange NUMPREC 0 (Some (2 * pi * n))
         (Some (2 * pi / (qnat (curve_resolution (d * pi) (2 * pi)) + 1))) 0 true)
    = Ret (0 :: l').
Proof.
  intros He Hpi Hn.
  set (s := 2 * pi / (qnat (curve_resolution (d * pi) (2 * pi)) + 1)).
  pose proof (step_positive pi (curve_resolution (d * pi) (2 * pi)) Hpi) as Hs.
  fold s in Hs.
  assert (Hstop : 0 <= 2 * pi * n) by (apply Qmult_le_0_compat; lra).
  assert (Hasc : 0 <= s * (2 * pi * n - 0)).
  { apply Qmult_le_0_compat; lra. }
  destruct (ascending_run (Gen 0 s (2 * pi * n + NUMPREC)) 0)
    as (fuel & l' & _ & Hrun & _).
  { exact Hs. }
  { cbn [gen_t gen_step gen_stop]. rewrite qnat_0. lra. }
  cbn [gen_t] in Hrun.
  rewrite <- (linrange_agreeing NUMPREC 0 (2 * pi * n) s 0 Hasc) in Hrun.
  now exists fuel, l'.
Qed.

(** C9.  With [d] and [thickness] the diameter and the thickness after the
    defaults and a thickness that is not zero, [coilspring_tension] derives
    the coil radius [r = d/2 - thickness], the count
    [n = floor((length - 2r) / thickness) - 0.5] and the hook offset
    [hold = length/2 - r], each operation being the program's own ([fl]
    rounds its result; the formulas over the reals are the case where [fl]
    is the identity).  The path is built from these: when [n] is not
    negative the call returns the hook arc from [(0, -r, -length/2)] to
    [(0, 0, -hold)], an arc from there to the start of the coil, the coil,
    which starts at [(r cos 0, r sin 0, -n * thickness / 2)], an arc from the
    end of the coil to [(0, 0, hold)] and the hook arc from there to
    [(0, -r, length/2)]. *)
Theorem tension_derived_quantities (length : Q) (d_arg thickness_arg : option Q)
    (d thickness : Q) :
  let r := fl (fl (d / 2) - thickness) in
  let n := fl (floor (fl (fl (length - fl (2 * r)) / thickness)) - 0.5) in
  let hold := fl (fl (0.5 * length) - r) in
  d = or_default d_arg (fl (length * fl 0.2)) ->
  thickness = or_default thickness_arg (fl (d * fl 0.1)) ->
  ~ thickness == 0 ->
  0 <= NUMPREC -> 0 < pi ->
  tension_derived fl length d_arg thickness_arg
  = Ret (mkTension d thickness r n hold) /\
  (0 <= n ->
   exists fuel a2 coil a3 c0,
     coilspring_tension fl NUMPREC pi cos sin curve_resolution
       fuel length d_arg thickness_arg false
     = Ret (Path [ ArcCentered (vscale (- 0.5 * length) vZ) vX
                     (Vec3 0 (- r) (- 0.5 * length)) (vscale (- hold) vZ);
                   a2;
                   Sub coil;
                   a3;
                   ArcCentered (vscale (0.5 * length) vZ) vX
                     (vscale hold vZ) (Vec3 0 (- r) (0.5 * length)) ]) /\
     prim_start a2 = Ret (vscale (- hold) vZ) /\
     prim_end a2 = Ret c0 /\
     first_item (points coil) = Ret c0 /\
     vx c0 == r * cos 0 /\ vy c0 == r * sin 0 /\
     vz c0 == - (n * thickness / 2) /\
     prim_start a3 = last_item (points coil) /\
     prim_end a3 = Ret (vscale hold vZ)).
Proof.
  intros r n hold Ed Eth Hth He Hpi.
  pose proof (tension_derived_Ret length d_arg thickness_arg d thickness Ed Eth Hth)
    as Hder.
  fold r in Hder. fold n in Hder. fold hold in Hder.
  split; [exact Hder|].
  intros Hn.
  destruct (tension_coil_run d n He Hpi Hn) as (fuel & l' & Hrun).
  exists fuel. unfold coilspring_tension. rewrite Hder.
  cbn [bind t_d t_thickness t_r t_ncoil t_hold]. rewrite Hrun.
  cbn [bind points map first_item last_item negb].
  do 4 eexists. split; [reflexivity|].
  cbn [prim_start prim_end points map first_item last_item vx vy vz].
  repeat split; try reflexivity.
  cbn [vz]. unfold Qdiv. change (/ 2) with (1 # 2). ring.
Qed.

End Tension.

Lemma tension_derived_quantities_witness :
  4 = or_default (Some 4) (20 * 0.2) /\
  0.4 = or_default (Some 0.4) (4 * 0.1) /\
  ~ 0.4 == 0 /\
  0 <= Sample.NUMPREC /\ 0 < Sample.pi /\
  0 <= floor ((20 - 2 * (4 / 2 - 0.4)) / 0.4) - 0.5 /\
  exists fuel a2 coil a3,
    coilspring_tension (fun x => x) Sample.NUMPREC Sample.pi Sample.cos Sample.sin
      Sample.curve_resolution fuel 20 (Some 4) (Some 0.4) false
    = Ret (Path [ ArcCentered (vscale (- 0.5 * 20) vZ) vX
                    (Vec3 0 (- (4 / 2 - 0.4)) (- 0.5 * 20))
                    (vscale (- (0.5 * 20 - (4 / 2 - 0.4))) vZ);
                  a2;
                  Sub coil;
                  a3;
                  ArcCentered (vscale (0.5 * 20) vZ) vX
                    (vscale (0.5 * 20 - (4 / 2 - 0.4)) vZ)
                    (Vec3 0 (- (4 / 2 - 0.4)) (0.5 * 20)) ]).
Proof.
  assert (H1 : 4 = or_default (Some 4) (20 * 0.2)) by reflexivity.
  assert (H2 : 0.4 = or_default (Some 0.4) (4 * 0.1)) by reflexivity.
  assert (H3 : ~ 0.4 == 0) by (intros C; discriminate C).
  assert (H4 : 0 <= Sample.NUMPREC) by (unfold Sample.NUMPREC; lra).
  assert (H5 : 0 < Sample.pi) by reflexivity.
  assert (H6 : 0 <= floor ((20 - 2 * (4 / 2 - 0.4)) / 0.4) - 0.5)
    by (vm_compute; discriminate).
  repeat (split; [assumption|]).
  destruct (proj2 (tension_derived_quantities (fun x => x) Sample.NUMPREC
                     Sample.pi Sample.cos Sample.sin Sample.curve_resolution
                     20 (Some 4) (Some 0.4) 4 0.4 H1 H2 H3 H4 H5) H6)
    as (fuel & a2 & coil & a3 & c0 & Hrun & _).
  exists fuel, a2, coil, a3. exact Hrun.
Defined.

(** The default call [coilspring_tension(20)] over the reals. *)
Example tension_defaults :
  exists dims,
    tension_derived (fun x => x) 20 None None = Ret dims /\
    t_r dims == 1.6 /\ t_ncoil dims == 41.5 /\ t_hold dims == 8.4.
Proof. eexists. split; [reflexivity|]. repeat split; reflexivity. Qed.

(** The floor on doubles.  Over the reals [coilspring_tension(7)] has the
    quotient 42 and the count 41.5; on doubles the quotient is
    41.999999999999993 and the count 40.5. *)
Example tension_7_reals :
  exists dims,
    tension_derived (fun x => x) 7 None None = Ret dims /\ t_ncoil dims == 41.5.
Proof. eexists. split; [reflexivity|]. reflexivity. Qed.

Example tension_7_doubles :
  exists dims,
    tension_derived Double.round 7 None None = Ret dims /\ t_ncoil dims == 40.5.
Proof. eexists. split; [vm_compute; reflexivity|]. vm_compute. reflexivity. Qed.

(** The calls [coilspring_tension(0.9, 1, 0.1)] and
    [coilspring_tension(2.9, 3, 0.1)], on the doubles that these decimals
    denote.  With the operations of the doubles the first has the quotient
    0.99999999999999978, hence an empty coil, and the second the quotient
    1.0000000000000009, hence half a turn; with the operations of the reals
    it is the other way round. *)
Example tension_09_doubles :
  coilspring_tension Double.round Sample.NUMPREC Sample.pi Sample.cos Sample.sin
    Sample.curve_resolution 100 (Double.round 0.9) (Some 1)
    (Some (Double.round 0.1)) false
  = Raise IndexError.
Proof. vm_compute. reflexivity. Qed.

Example tension_29_doubles :
  exists path,
    coilspring_tension Double.round Sample.NUMPREC Sample.pi Sample.cos Sample.sin
      Sample.curve_resolution 100 (Double.round 2.9) (Some 3)
      (Some (Double.round 0.1)) false
    = Ret (Path path).
Proof. eexists. vm_compute. reflexivity. Qed.

Example tension_09_reals :
  exists path,
    coilspring_tension (fun x => x) Sample.NUMPREC Sample.pi Sample.cos Sample.sin
      Sample.curve_resolution 100 (Double.round 0.9) (Some 1)
      (Some (Double.round 0.1)) false
    = Ret (Path path).
Proof. eexists. vm_compute. reflexivity. Qed.

Example tension_29_reals :
  coilspring_tension (fun x => x) Sample.NUMPREC Sample.pi Sample.cos Sample.sin
    Sample.curve_resolution 100 (Double.round 2.9) (Some 3)
    (Some (Double.round 0.1)) false
  = Raise IndexError.
Proof. vm_compute. reflexivity. Qed.

(** ** The hook of the torsion spring *)

Lemma sign_abs (x : Q) : ~ x == 0 -> Qabs (sign x) == 1.
Proof.
  intros H. unfold sign.
  destruct (Qlt_le_dec 0 x); [reflexivity|].
  destruct (Qlt_le_dec x 0); [reflexivity|]. lra.
Qed.

Lemma veq_sym (a b : vec3) : veq a b -> veq b a.
Proof. unfold veq. intros (Hx & Hy & Hz). now rewrite Hx, Hy, Hz. Qed.

Lemma veq_trans (a b c : vec3) : veq a b -> veq b c -> veq a c.
Proof.
  unfold veq. intros (Hx & Hy & Hz) (Hx' & Hy' & Hz').
  now rewrite Hx, Hy, Hz, Hx', Hy', Hz'.
Qed.

(** Merging keeps a point at the place of every point. *)
Lemma merge_from_keeps (l : list vec3) :
  forall p x, In x (p :: l) -> exists x', In x' (merge_from p l) /\ veq x' x.
Proof.
  induction l as [|q l IH]; intros p x Hin.
  - destruct Hin as [<-|[]]. exists p. split; [now left | apply veq_refl].
  - cbn [merge_from]. destruct (veqb p q) eqn:E.
    + apply veqb_veq in E. destruct Hin as [<-|[<-|Hin]].
      * apply IH. now left.
      * destruct (IH p p (or_introl eq_refl)) as (x' & Hx' & Hv).
        exists x'. split; [exact Hx' | now apply veq_trans with p].
      * apply IH. now right.
    + destruct Hin as [<-|Hin].
      * exists p. split; [now left | apply veq_refl].
      * destruct (IH q x Hin) as (x' & Hx' & Hv).
        exists x'. split; [now right | exact Hv].
Qed.

Lemma mergeclose_keeps (w : Wire) (x : vec3) :
  In x (points w) -> exists x', In x' (points (mergeclose w)) /\ veq x' x.
Proof.
  unfold mergeclose. destruct (points w) as [|p l] eqn:E; [intros []|].
  cbn [points]. apply merge_from_keeps.
Qed.

Section TorsionHook.

Variables NUMPREC pi : Q.
Variables cos sin : Q -> Q.
Variable curve_resolution : Q -> Q -> nat.

(** The path of the torsion spring when the coil has a turn to make: its
    first point is the tip of the first arm, the start of the coil moved by
    [(arm, 0, hook)] for the effective hook, the start of the coil is a
    point of the path, and its last point is the first one mirrored
    ([x] and [z] negated) and turned about [Z]. *)
Lemma torsion_path (arm : Q) (angle d length thickness hook : option Q) :
  let length' := or_default length (arm * 0.5) in
  let d' := or_default d arm in
  let thickness' := or_default thickness (d' * 0.1) in
  let hook' := or_default hook (- length') in
  let r := d' / 2 - thickness' in
  let a := pi - match angle with None => radians pi 45 | Some a => a end in
  0 <= NUMPREC -> 0 < pi ->
  ~ thickness' == 0 ->
  0 <= ceil (length' / thickness') + a / (2 * pi) ->
  exists fuel w p c0 q,
    coilspring_torsion NUMPREC pi cos sin curve_resolution
      fuel arm angle d length thickness hook false = Ret (Path w) /\
    first_item (points w) = Ret p /\
    In c0 (points w) /\
    last_item (points w) = Ret q /\
    vx c0 == - r * sin 0 /\ vy c0 == r * cos 0 /\
    vx p == arm + vx c0 /\ vy p == vy c0 /\
    vz p - vz c0 == torsion_hook thickness' hook' /\
    vz q == - vz p.
Proof.
  intros length' d' thickness' hook' r a He Hpi Hth Hncoil.
  unfold coilspring_torsion. cbv zeta.
  fold length'. fold d'. fold thickness'. fold r. fold a. fold hook'.
  set (div := curve_resolution (d' * pi) (2 * pi)).
  set (s := 2 * pi / (qnat div + 1)).
  pose proof (step_positive pi div Hpi) as Hs. fold s in Hs.
  rewrite (pydiv_Ret _ _ Hth). cbn [bind].
  set (ncoil := ceil (length' / thickness') + a / (2 * pi)) in *.
  assert (Hstop : 0 <= 2 * pi * ncoil) by (apply Qmult_le_0_compat; lra).
  assert (Hasc : 0 <= s * (2 * pi * ncoil - 0)).
  { apply Qmult_le_0_compat; lra. }
  destruct (ascending_run (Gen 0 s (2 * pi * ncoil + NUMPREC)) 0)
    as (fuel & l' & _ & Hrun & _).
  { exact Hs. }
  { cbn [gen_t gen_step gen_stop]. rewrite qnat_0. lra. }
  cbn [gen_t] in Hrun.
  rewrite <- (linrange_agreeing NUMPREC 0 (2 * pi * ncoil) s 0 Hasc) in Hrun.
  exists fuel. rewrite Hrun. cbn [bind points map first_item negb].
  unfold torsion_arm.
  cbn [transform flip points groups map rev app transformer].
  match goal with
  | |- context [Translate ?c] => set (c0 := c)
  end.
  match goal with
  | |- context [mergeclose ?w] => set (W := w)
  end.
  set (p := vadd (Vec3 arm 0 (torsion_hook thickness' hook')) c0).
  set (q := mat_apply (angleAxis_Z cos sin a)
              (mat_apply (mat_mul (scaledir vZ (- (1))) (scaledir vX (- (1)))) p)).
  assert (Hfirst : first_item (points W) = Ret p) by reflexivity.
  assert (Hlast : last_item (points W) = Ret q).
  { unfold W. cbn [wire_add transform flip points map rev app transformer].
    rewrite !app_comm_cons, last_item_app. reflexivity. }
  assert (Hin : In c0 (points W)).
  { unfold W. cbn [wire_add points app]. do 4 right. now left. }
  destruct (mergeclose_last W q Hlast) as (q' & Hq' & Hveq).
  destruct (mergeclose_keeps W c0 Hin) as (c0' & Hin' & (Hx & Hy & Hz)).
  exists (mergeclose W), p, c0', q'.
  split; [reflexivity|].
  split; [now apply mergeclose_first|].
  split; [exact Hin'|].
  split; [exact Hq'|].
  rewrite Hx, Hy, Hz. unfold p, c0, vadd. cbn [vx vy vz].
  split; [reflexivity|]. split; [reflexivity|]. split; [reflexivity|].
  split; [ring|]. split; [ring|].
  destruct Hveq as (_ & _ & Hqz). rewrite Hqz.
  pose proof (mirror_apply p) as (_ & _ & Mz). cbn [vz] in Mz.
  unfold q. set (m := mat_apply (mat_mul _ _) p) in *.
  unfold mat_apply, angleAxis_Z, dot. cbn [vx vy vz row2].
  rewrite Mz. unfold p, c0, vadd. cbn [vx vy vz]. ring.
Qed.

(** C10.  In a torsion spring that has a turn to make, the tip of the first
    arm is the start of the coil moved by [(arm, 0, hook)] for the effective
    hook: [thickness * sign(hook)] when the hook given is shorter than the
    thickness (in absolute values), the hook given when it is not; the tip
    of the second arm is at the opposite height.  With a positive
    thickness the replacement has the magnitude of the thickness and the
    sign of the hook. *)
Theorem torsion_hook_clamp (arm hook : Q) (angle d length thickness : option Q) :
  let length' := or_default length (arm * 0.5) in
  let d' := or_default d arm in
  let thickness' := or_default thickness (d' * 0.1) in
  let r := d' / 2 - thickness' in
  let a := pi - match angle with None => radians pi 45 | Some a => a end in
  0 <= NUMPREC -> 0 < pi ->
  ~ hook == 0 ->
  ~ thickness' == 0 ->
  0 <= ceil (length' / thickness') + a / (2 * pi) ->
  (exists fuel w p c0 q,
     coilspring_torsion NUMPREC pi cos sin curve_resolution
       fuel arm angle d length thickness (Some hook) false = Ret (Path w) /\
     first_item (points w) = Ret p /\
     In c0 (points w) /\
     last_item (points w) = Ret q /\
     vx c0 == - r * sin 0 /\ vy c0 == r * cos 0 /\
     vx p == arm + vx c0 /\ vy p == vy c0 /\
     (Qabs hook < Qabs thickness' ->
      vz p - vz c0 == thickness' * sign hook) /\
     (Qabs thickness' <= Qabs hook -> vz p - vz c0 == hook) /\
     vz q == - vz p) /\
  (0 < thickness' ->
   Qabs (thickness' * sign hook) == thickness' /\
   sign (thickness' * sign hook) = sign hook).
Proof.
  intros length' d' thickness' r a He Hpi Hh Hth Hncoil.
  assert (Hc : Qabs (thickness' * sign hook) == Qabs thickness').
  { rewrite Qabs_Qmult, (sign_abs hook Hh). ring. }
  split.
  - destruct (torsion_path arm angle d length thickness (Some hook) He Hpi Hth Hncoil)
      as (fuel & w & p & c0 & q & Hrun & Hp & Hin & Hq & Hx & Hy & Hpx & Hpy & Hpz & Hqz).
    rewrite (or_default_given hook _ Hh) in Hpz.
    exists fuel, w, p, c0, q.
    repeat (split; [assumption|]).
    split; [|split; [|exact Hqz]].
    + intros Hlt. rewrite Hpz. unfold torsion_hook.
      fold d'. fold thickness'.
      destruct (Qlt_le_dec (Qabs hook) (Qabs (thickness' * sign hook)));
        [reflexivity | lra].
    + intros Hge. rewrite Hpz. unfold torsion_hook.
      fold d'. fold thickness'.
      destruct (Qlt_le_dec (Qabs hook) (Qabs (thickness' * sign hook)));
        [lra | reflexivity].
  - intros Hpos. split; [rewrite Hc; apply Qabs_pos; lra|].
    unfold sign at 2 3.
    destruct (Qlt_le_dec 0 hook) as [Hp|Hp].
    + unfold sign. destruct (Qlt_le_dec 0 (thickness' * 1)); [reflexivity|lra].
    + destruct (Qlt_le_dec hook 0) as [Hn|Hn]; [|lra].
      unfold sign. destruct (Qlt_le_dec 0 (thickness' * - (1))); [lra|].
      destruct (Qlt_le_dec (thickness' * - (1)) 0); [reflexivity|lra].
Qed.

End TorsionHook.

Lemma torsion_hook_clamp_witness :
  0 <= Sample.NUMPREC /\ 0 < Sample.pi /\
  ~ - 0.2 == 0 /\
  ~ or_default None (or_default None 5 * 0.1) == 0 /\
  0 <= ceil (or_default None (5 * 0.5) / or_default None (or_default None 5 * 0.1))
       + (Sample.pi - radians Sample.pi 45) / (2 * Sample.pi) /\
  Qabs (- 0.2) < Qabs (or_default None (or_default None 5 * 0.1)) /\
  exists fuel w p c0,
    coilspring_torsion Sample.NUMPREC Sample.pi Sample.cos Sample.sin
      Sample.curve_resolution fuel 5 None None None None (Some (- 0.2)) false
    = Ret (Path w) /\
    first_item (points w) = Ret p /\
    In c0 (points w) /\
    vz p - vz c0 == or_default None (or_default None 5 * 0.1) * sign (- 0.2).
Proof.
  assert (H1 : 0 <= Sample.NUMPREC) by (unfold Sample.NUMPREC; lra).
  assert (H2 : 0 < Sample.pi) by reflexivity.
  assert (H3 : ~ - 0.2 == 0) by (intros C; discriminate C).
  assert (H4 : ~ or_default None (or_default None 5 * 0.1) == 0)
    by (intros C; discriminate C).
  assert (H5 : 0 <= ceil (or_default None (5 * 0.5)
                          / or_default None (or_default None 5 * 0.1))
                    + (Sample.pi - radians Sample.pi 45) / (2 * Sample.pi))
    by (vm_compute; discriminate).
  assert (H6 : Qabs (- 0.2) < Qabs (or_default None (or_default None 5 * 0.1)))
    by reflexivity.
  repeat (split; [assumption|]).
  destruct (proj1 (torsion_hook_clamp Sample.NUMPREC Sample.pi Sample.cos
                     Sample.sin Sample.curve_resolution 5 (- 0.2) None None None
                     None H1 H2 H3 H4 H5))
    as (fuel & w & p & c0 & q & Hrun & Hp & Hin & _ & _ & _ & _ & _ & Hlt & _).
  exists fuel, w, p, c0.
  split; [exact Hrun|]. split; [exact Hp|]. split; [exact Hin|]. exact (Hlt H6).
Defined.

(** C10, a hook that is replaced although it is not shorter than the
    thickness: [coilspring_torsion(5, d=5, length=0.5, thickness=-1,
    hook=0.5)] has [|hook| >= thickness], and the tip of its first arm is
    1 below the start of the coil, not 0.5 above: the test compares the
    absolute values. *)
Lemma torsion_negative_thickness_replaces_hook :
  - (1) <= Qabs 0.5 /\
  exists w p c0,
    coilspring_torsion Sample.NUMPREC Sample.pi Sample.cos Sample.sin
      Sample.curve_resolution 100 5 None (Some 5) (Some 0.5) (Some (- (1)))
      (Some 0.5) false
    = Ret (Path w) /\
    first_item (points w) = Ret p /\
    nth_error (points w) 2 = Some c0 /\
    vx p == 5 + vx c0 /\ vy p == vy c0 /\
    vz p - vz c0 == - (1) /\
    ~ vz p - vz c0 == 0.5.
Proof.
  split; [discriminate|].
  eexists. eexists. eexists. split; [vm_compute; reflexivity|].
  split; [vm_compute; reflexivity|]. split; [vm_compute; reflexivity|].
  split; [vm_compute; reflexivity|]. split; [vm_compute; reflexivity|].
  split; [vm_compute; reflexivity|].
  vm_compute. discriminate.
Qed.

(** ** Springs on a radius that is not positive *)

Section NegativeRadius.

Variable fl : Q -> Q.
Variables NUMPREC pi : Q.
Variables cos sin : Q -> Q.
Variable curve_resolution : Q -> Q -> nat.

(** The compression spring on a radius of either sign: it returns when its
    body range goes up, or down by more than the tolerance, and its path
    starts at [(r cos 0, r sin 0, -length/2)]. *)
Lemma compression_path_start (length d thickness : Q) :
  0 <= NUMPREC -> 0 < pi ->
  ~ d == 0 -> ~ thickness == 0 -> ~ d / 2 - thickness == 0 ->
  0 <= 2 * pi * (length - 4 * thickness) / (d / 2 - thickness) \/
  2 * pi * (length - 4 * thickness) / (d / 2 - thickness) < - NUMPREC ->
  exists fuel path p,
    coilspring_compression NUMPREC pi cos sin curve_resolution
      fuel length (Some d) (Some thickness) false = Ret (Path path) /\
    first_item (points path) = Ret p /\
    vx p == (d / 2 - thickness) * cos 0 /\
    vy p == (d / 2 - thickness) * sin 0 /\
    vz p == - length / 2.
Proof.
  intros He Hpi Hd Hth0 Hr0 Hbody.
  unfold coilspring_compression.
  rewrite (or_default_given d) by exact Hd.
  rewrite (or_default_given thickness) by exact Hth0.
  cbv zeta.
  set (div := curve_resolution (d * pi) (2 * pi)).
  set (s := 2 * pi / (qnat div + 1)).
  set (r := d / 2 - thickness) in *.
  pose proof (step_positive pi div Hpi) as Hs. fold s in Hs.
  destruct (two_turns_run NUMPREC pi 0 div He Hpi)
    as (fuel1 & l1 & n1 & Hrun1 & _).
  fold s in Hrun1.
  set (t1 := after_loop (0 :: l1) 0).
  rewrite (pydiv_Ret _ r Hr0).
  set (turns := 2 * pi * (length - 4 * thickness) / r) in *.
  assert (Hgap : t1 + turns - t1 == turns) by ring.
  assert (Hrun2 : exists fuel2 ts2,
             collect fuel2 (linrange NUMPREC t1 (Some (t1 + turns)) (Some s) 0 true)
             = Ret ts2).
  { destruct Hbody as [Hup|Hdown].
    - assert (Hasc : 0 <= s * (t1 + turns - t1)).
      { rewrite Hgap. apply Qmult_le_0_compat; lra. }
      destruct (ascending_run (Gen t1 s (t1 + turns + NUMPREC)) 0)
        as (fuel2 & l2 & n2 & Hrun2 & _).
      { exact Hs. }
      { cbn [gen_t gen_step gen_stop]. rewrite qnat_0. lra. }
      cbn [gen_t] in Hrun2.
      rewrite <- (linrange_agreeing NUMPREC t1 (t1 + turns) s 0 Hasc) in Hrun2.
      now exists fuel2, (t1 :: l2).
    - exists 1%nat, []. unfold linrange.
      destruct (Qlt_le_dec (s * (t1 + turns - t1)) 0) as [_|_];
        apply collect_empty; cbn [gen_t gen_stop]; lra. }
  destruct Hrun2 as (fuel2 & ts2 & Hrun2).
  set (t2 := after_loop ts2 t1).
  destruct (two_turns_run NUMPREC pi t2 div He Hpi)
    as (fuel3 & l3 & n3 & Hrun3 & _).
  fold s in Hrun3.
  exists (Nat.max fuel1 (Nat.max fuel2 fuel3)).
  rewrite (collect_more_fuel _ _ _ Hrun1) by lia. cbn [bind].
  fold t1.
  rewrite (collect_more_fuel _ _ _ Hrun2) by lia. cbn [bind].
  fold t2.
  rewrite (collect_more_fuel _ _ _ Hrun3) by lia. cbn [bind negb].
  eexists. eexists.
  split; [reflexivity|].
  cbn [points wire_add map app first_item].
  split; [reflexivity|]. cbn [vx vy vz].
  split; [reflexivity|]. split; [reflexivity|].
  qhalf. set (k := / (2 * pi)). ring.
Qed.

(** C2.  None of the three generators checks the thickness against the
    diameter: a call with [thickness > d/2 > 0] is taken like any other.
    When its coil has a range to run (for the compression spring a body
    range that goes up, or down by more than the tolerance; for the other
    two a count of turns that is not negative), it returns a path built on
    the radius [r = d/2 - thickness], which is negative: it starts at
    [(r cos 0, r sin 0, -length/2)] for the compression spring; for the
    tension spring it starts at the hook tip [(0, -r, -length/2)] and its
    coil at [(r cos 0, r sin 0, .)]; for the torsion spring the coil starts
    at [(-r sin 0, r cos 0, .)] and the path at the tip of the arm, [arm]
    away from there. *)
Theorem springs_accept_negative_radius :
  0 <= NUMPREC -> 0 < pi ->
  (forall length d thickness,
     0 < d -> d / 2 < thickness ->
     0 <= 2 * pi * (length - 4 * thickness) / (d / 2 - thickness) \/
     2 * pi * (length - 4 * thickness) / (d / 2 - thickness) < - NUMPREC ->
     exists fuel path p,
       coilspring_compression NUMPREC pi cos sin curve_resolution
         fuel length (Some d) (Some thickness) false = Ret (Path path) /\
       first_item (points path) = Ret p /\
       vx p == (d / 2 - thickness) * cos 0 /\
       vy p == (d / 2 - thickness) * sin 0 /\
       vz p == - length / 2) /\
  (forall length d thickness,
     0 < d -> d / 2 < thickness ->
     0 <= fl (floor (fl (fl (length - fl (2 * fl (fl (d / 2) - thickness)))
                         / thickness)) - 0.5) ->
     exists fuel a1 a2 coil a3 a4 c0,
       coilspring_tension fl NUMPREC pi cos sin curve_resolution
         fuel length (Some d) (Some thickness) false
       = Ret (Path [a1; a2; Sub coil; a3; a4]) /\
       prim_start a1
       = Ret (Vec3 0 (- fl (fl (d / 2) - thickness)) (- 0.5 * length)) /\
       first_item (points coil) = Ret c0 /\
       vx c0 == fl (fl (d / 2) - thickness) * cos 0 /\
       vy c0 == fl (fl (d / 2) - thickness) * sin 0) /\
  (forall arm angle d length thickness hook,
     0 < d -> d / 2 < thickness ->
     0 <= ceil (or_default length (arm * 0.5) / thickness)
          + (pi - match angle with None => radians pi 45 | Some a => a end)
            / (2 * pi) ->
     exists fuel w p c0,
       coilspring_torsion NUMPREC pi cos sin curve_resolution
         fuel arm angle (Some d) length (Some thickness) hook false
       = Ret (Path w) /\
       first_item (points w) = Ret p /\
       In c0 (points w) /\
       vx c0 == - (d / 2 - thickness) * sin 0 /\
       vy c0 == (d / 2 - thickness) * cos 0 /\
       vx p == arm + vx c0 /\ vy p == vy c0).
Proof.
  intros He Hpi. split; [|split].
  - intros length d thickness Hd Hr Hbody.
    assert (Hr' : d * (1 # 2) < thickness) by exact Hr.
    apply compression_path_start; try assumption; lra.
  - intros length d thickness Hd Hr Hn.
    assert (Hr' : d * (1 # 2) < thickness) by exact Hr.
    assert (Hd0 : ~ d == 0) by lra.
    assert (Hth0 : ~ thickness == 0) by lra.
    assert (Ed : d = or_default (Some d) (fl (length * fl 0.2)))
      by (symmetry; now apply or_default_given).
    assert (Eth : thickness = or_default (Some thickness) (fl (d * fl 0.1)))
      by (symmetry; now apply or_default_given).
    destruct (tension_coil_run NUMPREC pi curve_resolution d _ He Hpi Hn)
      as (fuel & l' & Hrun).
    exists fuel. unfold coilspring_tension.
    rewrite (tension_derived_Ret fl length (Some d) (Some thickness) d thickness
               Ed Eth Hth0).
    cbn [bind t_d t_thickness t_r t_ncoil t_hold]. rewrite Hrun.
    cbn [bind points map first_item last_item negb].
    do 6 eexists. split; [reflexivity|].
    cbn [prim_start points first_item vx vy].
    repeat split; reflexivity.
  - intros arm angle d length thickness hook Hd Hr Hn.
    assert (Hr' : d * (1 # 2) < thickness) by exact Hr.
    assert (Hd0 : ~ d == 0) by lra.
    assert (Hth0 : ~ thickness == 0) by lra.
    destruct (torsion_path NUMPREC pi cos sin curve_resolution
                arm angle (Some d) length (Some thickness) hook)
      as (fuel & w & p & c0 & q & Hrun & Hp & Hin & _ & Hx & Hy & Hpx & Hpy & _).
    { exact He. }
    { exact Hpi. }
    { rewrite (or_default_given d) by exact Hd0.
      now rewrite (or_default_given thickness) by exact Hth0. }
    { rewrite (or_default_given d) by exact Hd0.
      now rewrite (or_default_given thickness) by exact Hth0. }
    rewrite (or_default_given d) in Hx, Hy by exact Hd0.
    rewrite (or_default_given thickness) in Hx, Hy by exact Hth0.
    exists fuel, w, p, c0. repeat (split; [assumption|]). exact Hpy.
Qed.

End NegativeRadius.

Lemma springs_accept_negative_radius_witness :
  0 <= Sample.NUMPREC /\ 0 < Sample.pi /\
  0 < 4 /\ 4 / 2 < 3 /\
  2 * Sample.pi * (20 - 4 * 3) / (4 / 2 - 3) < - Sample.NUMPREC /\
  0 <= floor ((20 - 2 * (4 / 2 - 3)) / 3) - 0.5 /\
  0 <= ceil (or_default (Some 6) (5 * 0.5) / 3)
       + (Sample.pi - radians Sample.pi 45) / (2 * Sample.pi) /\
  (exists fuel path p,
     coilspring_compression Sample.NUMPREC Sample.pi Sample.cos Sample.sin
       Sample.curve_resolution fuel 20 (Some 4) (Some 3) false
     = Ret (Path path) /\
     first_item (points path) = Ret p /\
     vx p == (4 / 2 - 3) * Sample.cos 0) /\
  (exists fuel a1 a2 coil a3 a4,
     coilspring_tension (fun x => x) Sample.NUMPREC Sample.pi Sample.cos
       Sample.sin Sample.curve_resolution fuel 20 (Some 4) (Some 3) false
     = Ret (Path [a1; a2; Sub coil; a3; a4]) /\
     prim_start a1 = Ret (Vec3 0 (- (4 / 2 - 3)) (- 0.5 * 20))) /\
  (exists fuel w p,
     coilspring_torsion Sample.NUMPREC Sample.pi Sample.cos Sample.sin
       Sample.curve_resolution fuel 5 None (Some 4) (Some 6) (Some 3) None false
     = Ret (Path w) /\
     first_item (points w) = Ret p).
Proof.
  assert (H1 : 0 <= Sample.NUMPREC) by (unfold Sample.NUMPREC; lra).
  assert (H2 : 0 < Sample.pi) by reflexivity.
  assert (H3 : 0 < 4) by reflexivity.
  assert (H4 : 4 / 2 < 3) by reflexivity.
  assert (H5 : 2 * Sample.pi * (20 - 4 * 3) / (4 / 2 - 3) < - Sample.NUMPREC)
    by reflexivity.
  assert (H6 : 0 <= floor ((20 - 2 * (4 / 2 - 3)) / 3) - 0.5)
    by (vm_compute; discriminate).
  assert (H7 : 0 <= ceil (or_default (Some 6) (5 * 0.5) / 3)
                    + (Sample.pi - radians Sample.pi 45) / (2 * Sample.pi))
    by (vm_compute; discriminate).
  repeat (split; [assumption|]).
  destruct (springs_accept_negative_radius (fun x => x) Sample.NUMPREC Sample.pi
              Sample.cos Sample.sin Sample.curve_resolution H1 H2)
    as (Hc & Ht & Ho).
  split; [|split].
  - destruct (Hc 20 4 3 H3 H4 (or_intror H5))
      as (fuel & path & p & Hrun & Hp & Hx & _).
    exists fuel, path, p. auto.
  - destruct (Ht 20 4 3 H3 H4 H6)
      as (fuel & a1 & a2 & coil & a3 & a4 & c0 & Hrun & Ha1 & _).
    exists fuel, a1, a2, coil, a3, a4. auto.
  - destruct (Ho 5 None 4 (Some 6) 3 None H3 H4 H7)
      as (fuel & w & p & c0 & Hrun & Hp & _).
    exists fuel, w, p. auto.
Defined.

(** ** The table lookup *)

Lemma Qabs_zero_inv (x : Q) : Qabs x == 0 -> x == 0.
Proof. apply Qabs_case; intros; lra. Qed.

Lemma nearest_from_spec {A : Type} (key : A -> Q) (d : Q) (l : list A) :
  forall (pre : list A) (best : nat) (dist : Q) (row : A),
    nth_error (pre ++ l) best = Some row ->
    (best < List.length pre)%nat ->
    dist == Qabs (key row - d) ->
    (forall row', In row' pre -> dist <= Qabs (key row' - d)) ->
    is_nearest (pre ++ l) d key (nearest_from key d best dist (List.length pre) l).
Proof.
  induction l as [|a l IH]; intros pre best dist row Hrow Hlt Hdist Hmin.
  - cbn [nearest_from]. exists row. split; [exact Hrow|].
    intros row' Hin. rewrite app_nil_r in Hin. rewrite <- Hdist. now apply Hmin.
  - cbn [nearest_from].
    assert (Happ : pre ++ a :: l = (pre ++ [a]) ++ l) by (rewrite <- app_assoc; reflexivity).
    assert (Hlen : S (List.length pre) = List.length (pre ++ [a])).
    { rewrite length_app. simpl. lia. }
    rewrite Happ, Hlen.
    destruct (Qlt_le_dec (Qabs (key a - d)) dist) as [Hnew|Hold].
    + apply (IH (pre ++ [a]) (List.length pre) (Qabs (key a - d)) a).
      * rewrite <- Happ. rewrite nth_error_app2 by lia.
        rewrite Nat.sub_diag. reflexivity.
      * rewrite <- Hlen. lia.
      * reflexivity.
      * intros row' Hin. apply in_app_or in Hin. destruct Hin as [Hin|[<-|[]]].
        -- specialize (Hmin row' Hin). lra.
        -- lra.
    + apply (IH (pre ++ [a]) best dist row).
      * rewrite <- Happ. exact Hrow.
      * rewrite <- Hlen. lia.
      * exact Hdist.
      * intros row' Hin. apply in_app_or in Hin. destruct Hin as [Hin|[<-|[]]].
        -- now apply Hmin.
        -- exact Hold.
Qed.

(** The modelled lookup does what the spec says of [bisect]. *)
Lemma nearest_selects_nearest : selects_nearest nearest.
Proof.
  intros A l d key Hl. destruct l as [|a l]; [contradiction|].
  unfold nearest.
  apply (nearest_from_spec key d l [a] 0%nat (Qabs (key a - d)) a).
  - reflexivity.
  - simpl. lia.
  - reflexivity.
  - intros row' [<-|[]]. lra.
Qed.

(** ** nut and washer *)

Section Fasteners.

Variable bisect : forall A : Type, list A -> Q -> (A -> Q) -> nat.

(** What [nut] does with the row the lookup selects. *)
Lemma nut_decision (d : Q) (row : Q * Q * Q) :
  nth_error standard_hexnuts (bisect _ standard_hexnuts d hexnut_key) = Some row ->
  (hexnut_key row == d ->
   nut bisect d = Ret (mkHexNut (fst (fst row)) (snd (fst row)) (snd row))) /\
  (~ hexnut_key row == d ->
   nut bisect d = Raise (ValueError "no standard nut for the given diameter")).
Proof.
  intros Hrow. unfold nut, item. rewrite Hrow. cbn [bind].
  destruct row as [[k w] h]. cbn [fst snd]. split; intros H.
  - apply Qeq_bool_iff in H. rewrite H. reflexivity.
  - destruct (Qeq_bool (hexnut_key (k, w, h)) d) eqn:E; [|reflexivity].
    apply Qeq_bool_iff in E. contradiction.
Qed.

(** Whatever the lookup, [nut] only returns the nut of a row of [d]. *)
Lemma nut_requires_exact_match (d : Q) (m : HexNut) :
  nut bisect d = Ret m ->
  exists k w h,
    In (k, w, h) standard_hexnuts /\ k == d /\ m = mkHexNut k w h.
Proof.
  unfold nut, item.
  destruct (nth_error standard_hexnuts (bisect _ standard_hexnuts d hexnut_key))
    as [[[k w] h]|] eqn:Hrow; [|discriminate].
  cbn [bind]. destruct (Qeq_bool (hexnut_key (k, w, h)) d) eqn:E; [|discriminate].
  cbn [negb]. intros H. inversion H. exists k, w, h.
  split; [eapply nth_error_In, Hrow|]. split; [|reflexivity].
  now apply Qeq_bool_iff in E.
Qed.

(** What [washer] does with the row the lookup selects. *)
Lemma washer_decision (d : Q) (row : Q * Q * Q * Q) :
  nth_error standard_washers (bisect _ standard_washers d washer_key) = Some row ->
  ~ d == 0 ->
  (Qabs (washer_key row - d) / d < 0.2 ->
   washer bisect d None None
   = Ret (mkWasher (snd (fst (fst row))) (snd (fst row)) (snd row))) /\
  (0.2 <= Qabs (washer_key row - d) / d ->
   washer bisect d None None
   = Raise (ValueError "no standard nut for the given diameter")).
Proof.
  intros Hrow Hd. unfold washer, item. rewrite Hrow. cbn [bind].
  rewrite pydiv_Ret by exact Hd. cbn [bind].
  destruct row as [[[k i] e] h]. cbn [fst snd].
  destruct (Qlt_le_dec (Qabs (washer_key (k, i, e, h) - d) / d) 0.2) as [Hlt|Hle];
    split; intros H; try reflexivity; lra.
Qed.

Lemma standard_hexnuts_nonempty : standard_hexnuts <> [].
Proof. discriminate. Qed.

Lemma standard_washers_nonempty : standard_washers <> [].
Proof. discriminate. Qed.

(** C7.  With the lookup of the spec (a nearest row, the exact one when
    there is one), [nut(d)] returns the nut of the row of [d] when [d] is a
    listed diameter and raises the no-standard-size error when it is not;
    for a positive [d], [washer(d)] takes a row whose nominal diameter is
    nearest to [d], returns its washer when [abs(nominal - d) / d < 0.2] and
    raises the error otherwise. *)
Theorem standard_lookup (d : Q) :
  selects_nearest bisect ->
  ((forall row, In row standard_hexnuts -> ~ hexnut_key row == d) ->
   nut bisect d = Raise (ValueError "no standard nut for the given diameter")) /\
  (forall row, In row standard_hexnuts -> hexnut_key row == d ->
   exists k w h,
     In (k, w, h) standard_hexnuts /\ k == d /\
     nut bisect d = Ret (mkHexNut k w h)) /\
  (0 < d ->
   exists k i e h,
     In (k, i, e, h) standard_washers /\
     (forall row', In row' standard_washers ->
        Qabs (k - d) <= Qabs (washer_key row' - d)) /\
     (Qabs (k - d) / d < 0.2 ->
      washer bisect d None None = Ret (mkWasher i e h)) /\
     (0.2 <= Qabs (k - d) / d ->
      washer bisect d None None
      = Raise (ValueError "no standard nut for the given diameter"))).
Proof.
  intros Hb.
  destruct (Hb _ standard_hexnuts d hexnut_key standard_hexnuts_nonempty)
    as (nrow & Hnrow & Hnmin).
  destruct (Hb _ standard_washers d washer_key standard_washers_nonempty)
    as (wrow & Hwrow & Hwmin).
  destruct (nut_decision d nrow Hnrow) as [Hnut_ok Hnut_err].
  split; [|split].
  - intros Hnone. apply Hnut_err. apply Hnone. eapply nth_error_In, Hnrow.
  - intros row Hin Hkey.
    assert (Hexact : hexnut_key nrow == d).
    { specialize (Hnmin row Hin).
      assert (E : Qabs (hexnut_key row - d) == 0).
      { setoid_replace (hexnut_key row - d) with 0 by lra. reflexivity. }
      rewrite E in Hnmin.
      pose proof (Qabs_nonneg (hexnut_key nrow - d)) as Hnn.
      assert (Hz : Qabs (hexnut_key nrow - d) == 0) by lra.
      apply Qabs_zero_inv in Hz. lra. }
    destruct nrow as [[k w] h]. exists k, w, h.
    split; [eapply nth_error_In, Hnrow|]. split; [exact Hexact|].
    apply (Hnut_ok Hexact).
  - intros Hd. destruct wrow as [[[k i] e] h]. exists k, i, e, h.
    split; [eapply nth_error_In, Hwrow|]. split; [exact Hwmin|].
    apply (washer_decision d (k, i, e, h) Hwrow). lra.
Qed.

End Fasteners.

Lemma standard_lookup_witness :
  selects_nearest nearest /\ 0 < 3 /\
  (forall row, In row standard_hexnuts -> hexnut_key row == 3 ->
   exists k w h,
     In (k, w, h) standard_hexnuts /\ k == 3 /\
     nut nearest 3 = Ret (mkHexNut k w h)) /\
  exists k i e h,
    In (k, i, e, h) standard_washers /\
    (Qabs (k - 3) / 3 < 0.2 ->
     washer nearest 3 None None = Ret (mkWasher i e h)).
Proof.
  assert (H1 : selects_nearest nearest) by exact nearest_selects_nearest.
  assert (H2 : 0 < 3) by lra.
  split; [exact H1|]. split; [exact H2|].
  destruct (standard_lookup nearest 3 H1) as (_ & Hnut & Hwasher).
  split; [exact Hnut|].
  destruct (Hwasher H2) as (k & i & e & h & Hin & _ & Hok & _).
  exists k, i, e, h. split; [exact Hin | exact Hok].
Defined.

(** C7, a washer that is accepted far from the table: the nominal diameter
    nearest to [-5] is 1.6, at a relative distance of 1.32, and
    [washer(-5)] returns the washer of that row.  The test divides by [d]:
    for a negative [d] the quotient is negative, hence below 0.2. *)
Lemma washer_accepts_negative_diameter :
  selects_nearest nearest /\
  is_nearest standard_washers (- (5)) washer_key 0 /\
  nth_error standard_washers 0 = Some (1.6, 1.7, 4, 0.3) /\
  0.2 <= Qabs (1.6 - - (5)) / Qabs (- (5)) /\
  washer nearest (- (5)) None None = Ret (mkWasher 1.7 4 0.3).
Proof.
  split; [exact nearest_selects_nearest|].
  split.
  - exact (nearest_selects_nearest _ standard_washers (- (5)) washer_key
             standard_washers_nonempty).
  - split; [reflexivity|]. split; [vm_compute; discriminate | reflexivity].
Qed.

Example nut_3 : nut nearest 3 = Ret (mkHexNut 3 5.5 2.4).
Proof. reflexivity. Qed.

Example nut_2_2 :
  nut nearest 2.2 = Raise (ValueError "no standard nut for the given diameter").
Proof. reflexivity. Qed.

Example washer_3 : washer nearest 3 None None = Ret (mkWasher 3.2 7 0.5).
Proof. reflexivity. Qed.

Example washer_100 :
  washer nearest 100 None None
  = Raise (ValueError "no standard nut for the given diameter").
Proof. reflexivity. Qed.

(** ** Zero steps, open ends and descending ranges of [linrange] *)



Section LinrangeRuns.

Variable NUMPREC : Q.

(** X1.  A step of zero is not caught: when the step given is zero, or when
    only [div] is given and [start] equals [stop], the stepper yields
    [start] again and again and never ends. *)
Theorem linrange_zero_step (start stop : Q) (step : option Q) (div : nat)
    (end_ : bool) :
  0 <= NUMPREC -> start <= stop ->
  (exists s, step = Some s /\ s == 0) \/ (step = None /\ start == stop) ->
  (forall fuel,
     collect fuel (linrange NUMPREC start (Some stop) step div end_) = Timeout) /\
  (forall n,
     List.length (take n (linrange NUMPREC start (Some stop) step div end_)) = n) /\
  (forall t, yields (linrange NUMPREC start (Some stop) step div end_) t ->
             t == start).
Proof.
  intros He Hle Hzero.
  set (g := linrange NUMPREC start (Some stop) step div end_).
  assert (Hs : gen_step g == 0).
  { unfold g, linrange. destruct Hzero as [(s & -> & Hs)|(-> & Heq)]; cbn [gen_step].
    - destruct (Qlt_le_dec (s * (stop - start)) 0); lra.
    - unfold Qdiv. setoid_replace (stop - start) with 0 by lra. ring. }
  assert (Ht : gen_t g == start) by reflexivity.
  assert (Hb : gen_t g <= gen_stop g).
  { unfold g, linrange in *. cbn [gen_t gen_stop gen_step] in *.
    destruct end_; lra. }
  split; [|split].
  - intros fuel. apply collect_diverges; lra.
  - intros n. apply take_diverges; lra.
  - intros t (n & Hin). apply In_nth_error in Hin. destruct Hin as [i Hi].
    apply take_nth in Hi. destruct Hi as [Hi _]. rewrite Hi, Hs, Ht. ring.
Qed.


End LinrangeRuns.

Lemma linrange_zero_step_witness :
  0 <= Sample.NUMPREC /\ 0 <= 1 /\
  forall fuel, collect fuel (linrange Sample.NUMPREC 0 (Some 1) (Some 0) 0 true) = Timeout.
Proof.
  assert (H1 : 0 <= Sample.NUMPREC) by (unfold Sample.NUMPREC; lra).
  assert (H2 : 0 <= 1) by lra.
  split; [exact H1|]. split; [exact H2|].
  exact (proj1 (linrange_zero_step Sample.NUMPREC 0 1 (Some 0) 0 true H1 H2
                  (or_introl (ex_intro _ 0 (conj eq_refl (Qeq_refl 0)))))).
Defined.


Lemma linrange_descending_witness :
  0 < 10 /\
  gen_step (linrange Sample.NUMPREC 10 (Some 0) (Some 2) 0 true) < 0.
Proof.
  assert (H1 : 0 < 10) by lra.
  split; [exact H1|].
  refine (proj1 (linrange_descending Sample.NUMPREC 10 0 (Some 2) 0 true H1 _)).
  intros s E. inversion E. intros C. discriminate C.
Defined.

(** ** Shapes and failures of the springs *)

Lemma or_default_zero (x : option Q) (dflt : Q) :
  or_default x dflt == 0 <-> unset x = true /\ dflt == 0.
Proof.
  destruct x as [v|]; cbn [or_default unset].
  - destruct (Qeq_bool v 0) eqn:E.
    + tauto.
    + split; [|intros [C _]; discriminate C].
      intros H. apply Qeq_bool_iff in H. congruence.
  - tauto.
Qed.

Lemma pydiv_Raise_inv (a b : Q) (e : exn) :
  pydiv a b = Raise e -> b == 0 /\ e = ZeroDivisionError.
Proof.
  unfold pydiv. destruct (Qeq_bool b 0) eqn:E; [|discriminate].
  intros H. inversion H. split; [now apply Qeq_bool_iff | reflexivity].
Qed.

Lemma first_item_Raise_inv {A : Type} (l : list A) (e : exn) :
  first_item l = Raise e -> e = IndexError.
Proof. destruct l; cbn [first_item]; intros H; now inversion H. Qed.

Lemma last_item_Raise_inv {A : Type} (l : list A) (e : exn) :
  last_item l = Raise e -> e = IndexError.
Proof. destruct l; cbn [last_item]; intros H; now inversion H. Qed.

Lemma item_Raise_inv {A : Type} (l : list A) (i : nat) (e : exn) :
  item l i = Raise e -> e = IndexError.
Proof. unfold item. destruct (nth_error l i); intros H; now inversion H. Qed.

Lemma collect_never_raises (fuel : nat) (g : gen) (e : exn) :
  collect fuel g <> Raise e.
Proof.
  intros H. apply (collect_raises_nothing (fun _ => False) _ _ _ H).
Qed.

Lemma helix_on_cylinder (cos sin : Q -> Q) (r : Q) (h : Q -> Q) (ts : list Q) :
  (forall t, cos t * cos t + sin t * sin t == 1) ->
  Forall (fun p => axis_dist2 p == r * r)
         (map (fun t => Vec3 (r * cos t) (r * sin t) (h t)) ts).
Proof.
  intros H. apply Forall_forall. intros p Hin.
  apply in_map_iff in Hin. destruct Hin as (t & <- & _).
  unfold axis_dist2. cbn [vx vy].
  setoid_replace (r * cos t * (r * cos t) + r * sin t * (r * sin t))
    with (r * r * (cos t * cos t + sin t * sin t)) by ring.
  rewrite H. ring.
Qed.

Lemma sample_unit_circle (t : Q) :
  Sample.cos t * Sample.cos t + Sample.sin t * Sample.sin t == 1.
Proof.
  unfold Sample.cos, Sample.sin. field. nra.
Qed.

Section SpringShapes.

Variable fl : Q -> Q.
Variables NUMPREC pi : Q.
Variables cos sin : Q -> Q.
Variable curve_resolution : Q -> Q -> nat.

(** X8.  Every point of the path of a compression spring lies on the cylinder of
    the coil radius [d/2 - thickness] about the [Z] axis, and the path has
    the three groups coil, spring, coil. *)
Theorem compression_on_cylinder (fuel : nat) (length : Q) (d thickness : option Q)
    (path : Wire) :
  let d' := or_default d (length * 0.2) in
  let r := d' / 2 - or_default thickness (d' * 0.1) in
  (forall t, cos t * cos t + sin t * sin t == 1) ->
  coilspring_compression NUMPREC pi cos sin curve_resolution
    fuel length d thickness false = Ret (Path path) ->
  groups path = ["coil"; "spring"; "coil"]%string /\
  Forall (fun p => axis_dist2 p == r * r) (points path).
Proof.
  intros d' r Hunit Hrun.
  unfold coilspring_compression in Hrun. cbv zeta in Hrun.
  fold d' in Hrun. fold r in Hrun.
  apply bind_Ret_inv in Hrun. destruct Hrun as (ts1 & _ & Hrun).
  apply bind_Ret_inv in Hrun. destruct Hrun as (turns & _ & Hrun).
  apply bind_Ret_inv in Hrun. destruct Hrun as (ts2 & _ & Hrun).
  apply bind_Ret_inv in Hrun. destruct Hrun as (ts3 & _ & Hrun).
  cbn [negb] in Hrun. inversion Hrun as [Hpath]. clear Hrun.
  cbn [points groups wire_add]. split; [reflexivity|].
  rewrite !Forall_app. repeat split; now apply helix_on_cylinder.
Qed.

(** X9.  With [solid=True] the compression spring sweeps the very path that
    [solid=False] returns: a disc of radius [thickness/2], normal to [Y], at
    the first point of the path, which is at height [-length/2]. *)
Theorem compression_solid_sweeps_path (fuel : nat) (length : Q)
    (d thickness : option Q) (path : Wire) :
  let d' := or_default d (length * 0.2) in
  let thickness' := or_default thickness (d' * 0.1) in
  0 <= NUMPREC -> 0 < pi ->
  coilspring_compression NUMPREC pi cos sin curve_resolution
    fuel length d thickness false = Ret (Path path) ->
  exists p0,
    first_item (points path) = Ret p0 /\
    vz p0 == - length / 2 /\
    coilspring_compression NUMPREC pi cos sin curve_resolution
      fuel length d thickness true
    = Ret (Tube (mkDisc p0 vY true (thickness' / 2) true) path).
Proof.
  intros d' thickness' He Hpi Hrun.
  unfold coilspring_compression in *. cbv zeta in *.
  fold d' in Hrun |- *. fold thickness' in Hrun |- *.
  set (s := 2 * pi / (qnat (curve_resolution (d' * pi) (2 * pi)) + 1)) in *.
  pose proof (step_positive pi (curve_resolution (d' * pi) (2 * pi)) Hpi) as Hs.
  fold s in Hs.
  apply bind_Ret_inv in Hrun. destruct Hrun as (ts1 & H1 & Hrun). rewrite H1.
  apply bind_Ret_inv in Hrun. destruct Hrun as (turns & H2 & Hrun).
  cbn [bind]. rewrite H2.
  apply bind_Ret_inv in Hrun. destruct Hrun as (ts2 & H3 & Hrun).
  cbn [bind]. rewrite H3.
  apply bind_Ret_inv in Hrun. destruct Hrun as (ts3 & H4 & Hrun).
  cbn [bind]. rewrite H4.
  cbn [negb bind] in Hrun |- *. inversion Hrun as [Hpath]. clear Hrun.
  rewrite linrange_agreeing in H1 by nra.
  destruct (collect_head _ _ _ H1) as [l1 ->].
  { cbn [gen_t gen_stop]. lra. }
  cbn [gen_t points wire_add map app first_item bind].
  eexists. split; [reflexivity|]. split; [|reflexivity].
  cbn [vz]. unfold Qdiv. setoid_replace (0 - 0) with 0 by ring. 
  change (/ 2) with (1 # 2). ring.
Qed.

(** X11.  A tension spring whose count [n] of turns comes out negative
    (the quotient [(length - 2r) / thickness] that the program computes is
    below 1) has an empty coil: the call fails with an [IndexError] on
    [coil[0]]. *)
Theorem tension_too_short (fuel : nat) (length : Q) (d_arg thickness_arg : option Q)
    (d thickness : Q) (solid : bool) :
  let r := fl (fl (d / 2) - thickness) in
  let n := fl (floor (fl (fl (length - fl (2 * r)) / thickness)) - 0.5) in
  d = or_default d_arg (fl (length * fl 0.2)) ->
  thickness = or_default thickness_arg (fl (d * fl 0.1)) ->
  ~ thickness == 0 ->
  0 < pi ->
  2 * pi * n + NUMPREC < 0 ->
  coilspring_tension fl NUMPREC pi cos sin curve_resolution
    (S fuel) length d_arg thickness_arg solid = Raise IndexError.
Proof.
  intros r n Hd Hth Hth0 Hpi Hn.
  unfold coilspring_tension.
  rewrite (tension_derived_Ret fl length d_arg thickness_arg d thickness Hd Hth Hth0).
  cbn [bind t_d t_thickness t_r t_ncoil t_hold]. fold r. fold n.
  set (s := 2 * pi / (qnat (curve_resolution (d * pi) (2 * pi)) + 1)).
  pose proof (step_positive pi (curve_resolution (d * pi) (2 * pi)) Hpi) as Hs.
  fold s in Hs.
  set (b := 2 * pi * n) in *.
  unfold linrange.
  destruct (Qlt_le_dec (s * (b - 0)) 0) as [_|_];
    (rewrite collect_empty; [reflexivity | cbn [gen_t gen_stop]; lra]).
Qed.

(** X12.  A tension spring whose count [n] of turns is not negative returns
    a chain of five primitives, each starting where the one before ends,
    from the hook tip [(0, -r, -length/2)] to the hook tip
    [(0, -r, length/2)]; the middle one is the coil, wound on the radius
    [r]. *)
Theorem tension_returns (length : Q) (d_arg thickness_arg : option Q)
    (d thickness : Q) :
  let r := fl (fl (d / 2) - thickness) in
  let n := fl (floor (fl (fl (length - fl (2 * r)) / thickness)) - 0.5) in
  d = or_default d_arg (fl (length * fl 0.2)) ->
  thickness = or_default thickness_arg (fl (d * fl 0.1)) ->
  ~ thickness == 0 ->
  0 <= NUMPREC -> 0 < pi ->
  0 <= n ->
  exists fuel a1 a2 coil a3 a4,
    coilspring_tension fl NUMPREC pi cos sin curve_resolution
      fuel length d_arg thickness_arg false
    = Ret (Path [a1; a2; Sub coil; a3; a4]) /\
    connected [a1; a2; Sub coil; a3; a4] /\
    prim_start a1 = Ret (Vec3 0 (- r) (- 0.5 * length)) /\
    prim_end a4 = Ret (Vec3 0 (- r) (0.5 * length)) /\
    ((forall t, cos t * cos t + sin t * sin t == 1) ->
     Forall (fun p => axis_dist2 p == r * r) (points coil)).
Proof.
  intros r n Hd Hth Hth0 He Hpi Hn.
  destruct (tension_coil_run NUMPREC pi curve_resolution d n He Hpi Hn)
    as (fuel & l' & Hrun).
  exists fuel. unfold coilspring_tension.
  rewrite (tension_derived_Ret fl length d_arg thickness_arg d thickness Hd Hth Hth0).
  cbn [bind t_d t_thickness t_r t_ncoil t_hold]. fold r. fold n.
  rewrite Hrun.
  cbn [bind points map first_item last_item negb].
  do 5 eexists. split; [reflexivity|].
  split; [|split; [|split]].
  - cbn [connected prim_start prim_end points map first_item last_item].
    repeat split; eexists; split; reflexivity.
  - reflexivity.
  - reflexivity.
  - intros Hunit. cbn [points].
    apply (helix_on_cylinder cos sin r
             (fun t => - 0.5 * n * thickness + t / (2 * pi) * thickness)
             (0 :: l') Hunit).
Qed.

(** X7.  The compression spring fails on a division by zero exactly when the
    coil radius [d/2 - thickness], which is also the pitch of the body, is
    zero; it does so after the top turns were computed. *)
Theorem compression_zero_division (length : Q) (d thickness : option Q)
    (solid : bool) :
  let d' := or_default d (length * 0.2) in
  let r := d' / 2 - or_default thickness (d' * 0.1) in
  0 <= NUMPREC -> 0 < pi ->
  (exists fuel,
     coilspring_compression NUMPREC pi cos sin curve_resolution
       fuel length d thickness solid = Raise ZeroDivisionError)
  <-> r == 0.
Proof.
  intros d' r He Hpi. unfold coilspring_compression. cbv zeta.
  fold d'. fold r. split.
  - intros [fuel H].
    apply bind_Raise_inv in H. destruct H as [H|(ts1 & _ & H)];
      [now apply collect_never_raises in H|].
    apply bind_Raise_inv in H. destruct H as [H|(turns & _ & H)];
      [now apply pydiv_Raise_inv in H|].
    apply bind_Raise_inv in H. destruct H as [H|(ts2 & _ & H)];
      [now apply collect_never_raises in H|].
    apply bind_Raise_inv in H. destruct H as [H|(ts3 & _ & H)];
      [now apply collect_never_raises in H|].
    destruct solid; cbn [negb] in H; [|discriminate].
    apply bind_Raise_inv in H. destruct H as [H|(p0 & _ & H)]; [|discriminate].
    apply first_item_Raise_inv in H. discriminate.
  - intros Hr.
    destruct (two_turns_run NUMPREC pi 0 (curve_resolution (d' * pi) (2 * pi)) He Hpi)
      as (fuel & l & n & Hrun & _).
    exists fuel. rewrite Hrun. cbn [bind].
    now rewrite (pydiv_zero _ _ Hr).
Qed.

(** X13.  The tension and the torsion spring fail on a division by zero exactly
    when the thickness ends up zero: no thickness and no diameter given (or
    zero), and a length (an arm) of zero.  They do so before any point is
    computed.  For the tension spring this holds whatever the rounding [fl],
    provided it rounds nothing but zero to zero. *)
Theorem springs_zero_division (fuel : nat) (length arm : Q)
    (d thickness angle tlength hook : option Q) (solid : bool) :
  0 < pi ->
  ((forall x, fl x == 0 <-> x == 0) ->
   (coilspring_tension fl NUMPREC pi cos sin curve_resolution
      fuel length d thickness solid = Raise ZeroDivisionError
    <-> unset thickness = true /\ unset d = true /\ length == 0)) /\
  (coilspring_torsion NUMPREC pi cos sin curve_resolution
     fuel arm angle d tlength thickness hook solid = Raise ZeroDivisionError
   <-> unset thickness = true /\ unset d = true /\ arm == 0).
Proof.
  intros Hpi. split.
  - intros Hfl.
    assert (Hscale : forall x c : Q, ~ c == 0 -> (fl (x * fl c) == 0 <-> x == 0)).
    { intros x c Hc. rewrite Hfl.
      assert (Hc' : ~ fl c == 0) by (rewrite Hfl; exact Hc).
      split; intros H.
      - destruct (Qmult_integral _ _ H) as [H0|H0]; [exact H0 | contradiction].
      - rewrite H. ring. }
    assert (Hz : or_default thickness
                   (fl (or_default d (fl (length * fl 0.2)) * fl 0.1)) == 0
                 <-> unset thickness = true /\ unset d = true /\ length == 0).
    { rewrite or_default_zero,
        (Hscale _ 0.1 ltac:(intros C; discriminate C)), or_default_zero,
        (Hscale _ 0.2 ltac:(intros C; discriminate C)).
      tauto. }
    rewrite <- Hz. unfold coilspring_tension, tension_derived. cbv zeta. split.
    + intros H.
      apply bind_Raise_inv in H. destruct H as [H|(dims & Hdims & H)].
      * apply bind_Raise_inv in H. destruct H as [H|(turns & _ & H)];
          [now apply pydiv_Raise_inv in H | discriminate].
      * exfalso.
        apply bind_Raise_inv in H. destruct H as [H|(ts & _ & H)];
          [now apply collect_never_raises in H|].
        apply bind_Raise_inv in H. destruct H as [H|(c0 & _ & H)].
        { apply first_item_Raise_inv in H. discriminate. }
        apply bind_Raise_inv in H. destruct H as [H|(cN & _ & H)].
        { apply last_item_Raise_inv in H. discriminate. }
        destruct solid; discriminate.
    + intros H. now rewrite (pydiv_zero _ _ H).
  - assert (Hz : or_default thickness (or_default d arm * 0.1) == 0
                 <-> unset thickness = true /\ unset d = true /\ arm == 0).
    { rewrite or_default_zero.
      assert (E : or_default d arm * 0.1 == 0 <-> or_default d arm == 0)
        by (split; intros; lra).
      rewrite E, or_default_zero. tauto. }
    rewrite <- Hz. unfold coilspring_torsion. cbv zeta. split.
    + intros H.
      apply bind_Raise_inv in H. destruct H as [H|(turns & _ & H)];
        [now apply pydiv_Raise_inv in H|].
      exfalso.
      apply bind_Raise_inv in H. destruct H as [H|(ts & _ & H)];
        [now apply collect_never_raises in H|].
      apply bind_Raise_inv in H. destruct H as [H|(c0 & _ & H)].
      { apply first_item_Raise_inv in H. discriminate. }
      destruct solid; cbn [negb] in H; [|discriminate].
      apply bind_Raise_inv in H. destruct H as [H|(p0 & _ & H)].
      { apply item_Raise_inv in H. discriminate. }
      apply bind_Raise_inv in H. destruct H as [H|(p1 & _ & H)].
      { apply item_Raise_inv in H. discriminate. }
      discriminate.
    + intros H. now rewrite (pydiv_zero _ _ H).
Qed.

(** X14.  The arms of a torsion spring leave the coil along its tangent: whenever
    the coil has a turn to make, the first and the last point of the path
    lie at squared distance [arm^2 + r^2] of the axis, [r = d/2 - thickness]
    being the coil radius. *)
Theorem torsion_endpoints (arm : Q) (angle d length thickness hook : option Q) :
  let length' := or_default length (arm * 0.5) in
  let d' := or_default d arm in
  let thickness' := or_default thickness (d' * 0.1) in
  let r := d' / 2 - thickness' in
  let a := pi - match angle with None => radians pi 45 | Some a => a end in
  0 <= NUMPREC -> 0 < pi ->
  sin 0 == 0 -> cos 0 == 1 ->
  cos a * cos a + sin a * sin a == 1 ->
  ~ thickness' == 0 ->
  0 <= ceil (length' / thickness') + a / (2 * pi) ->
  exists fuel w p q,
    coilspring_torsion NUMPREC pi cos sin curve_resolution
      fuel arm angle d length thickness hook false = Ret (Path w) /\
    first_item (points w) = Ret p /\
    last_item (points w) = Ret q /\
    axis_dist2 p == arm * arm + r * r /\
    axis_dist2 q == arm * arm + r * r.
Proof.
  intros length' d' thickness' r a He Hpi Hsin Hcos Hunit Hth Hncoil.
  unfold coilspring_torsion. cbv zeta.
  fold length'. fold d'. fold thickness'. fold r. fold a.
  set (hook' := or_default hook (- length')).
  set (div := curve_resolution (d' * pi) (2 * pi)).
  set (s := 2 * pi / (qnat div + 1)).
  pose proof (step_positive pi div Hpi) as Hs. fold s in Hs.
  rewrite (pydiv_Ret _ _ Hth). cbn [bind].
  set (ncoil := ceil (length' / thickness') + a / (2 * pi)) in *.
  assert (Hstop : 0 <= 2 * pi * ncoil) by nra.
  assert (Hasc : 0 <= s * (2 * pi * ncoil - 0)).
  { apply Qmult_le_0_compat; lra. }
  destruct (ascending_run (Gen 0 s (2 * pi * ncoil + NUMPREC)) 0)
    as (fuel & l' & _ & Hrun & _).
  { exact Hs. }
  { cbn [gen_t gen_step gen_stop]. rewrite qnat_0. lra. }
  cbn [gen_t] in Hrun.
  rewrite <- (linrange_agreeing NUMPREC 0 (2 * pi * ncoil) s 0 Hasc) in Hrun.
  exists fuel. rewrite Hrun. cbn [bind points map first_item negb].
  unfold torsion_arm.
  cbn [transform flip points groups map rev app transformer].
  match goal with
  | |- context [Translate ?c] => set (c0 := c)
  end.
  match goal with
  | |- context [mergeclose ?w] => set (W := w)
  end.
  set (p := vadd (Vec3 arm 0 (torsion_hook thickness' hook')) c0).
  set (q := mat_apply (angleAxis_Z cos sin a)
              (mat_apply (mat_mul (scaledir vZ (- (1))) (scaledir vX (- (1)))) p)).
  assert (Hfirst : first_item (points W) = Ret p) by reflexivity.
  assert (Hlast : last_item (points W) = Ret q).
  { unfold W. cbn [wire_add transform flip points map rev app transformer].
    rewrite !app_comm_cons, last_item_app. reflexivity. }
  destruct (mergeclose_last W q Hlast) as (q' & Hq' & Hveq).
  assert (Hp : axis_dist2 p == arm * arm + r * r).
  { unfold p, c0, axis_dist2, vadd. cbn [vx vy vz].
    rewrite Hsin, Hcos. ring. }
  exists (mergeclose W), p, q'.
  split; [reflexivity|].
  split; [now apply mergeclose_first|].
  split; [exact Hq'|].
  split; [exact Hp|].
  rewrite (axis_dist2_veq _ _ Hveq). unfold q.
  rewrite (rotation_keeps_axis_distance cos sin a _ Hunit).
  rewrite (axis_dist2_veq _ _ (mirror_apply p)).
  rewrite <- Hp. unfold axis_dist2. cbn [vx vy]. ring.
Qed.

(** X10.  With the default diameter and thickness ([0.2 * length] and a tenth of
    it) the compression spring returns for every positive length, and the
    path starts at [z = -length/2]. *)
Theorem compression_default_call (length : Q) :
  0 <= NUMPREC -> 0 < pi -> 0 < length ->
  exists fuel path p,
    coilspring_compression NUMPREC pi cos sin curve_resolution
      fuel length None None false = Ret (Path path) /\
    first_item (points path) = Ret p /\
    vz p == - length / 2.
Proof.
  intros He Hpi Hlen.
  assert (Hd : ~ length * 0.2 == 0) by lra.
  assert (Hth : ~ length * 0.2 * 0.1 == 0) by lra.
  assert (E : forall fuel,
             coilspring_compression NUMPREC pi cos sin curve_resolution
               fuel length None None false
             = coilspring_compression NUMPREC pi cos sin curve_resolution
                 fuel length (Some (length * 0.2)) (Some (length * 0.2 * 0.1)) false).
  { intros fuel. unfold coilspring_compression.
    rewrite (or_default_given _ _ Hd), (or_default_given _ _ Hth). reflexivity. }
  destruct (compression_endpoints NUMPREC pi cos sin curve_resolution
              length (length * 0.2) (length * 0.2 * 0.1))
    as (fuel & path & p & q & Hrun & Hp & _ & Hzp & _).
  { exact He. }
  { exact Hpi. }
  { lra. }
  { qhalf. lra. }
  { left. lra. }
  exists fuel, path, p. rewrite E. auto.
Qed.

End SpringShapes.

Lemma compression_zero_division_witness :
  0 <= Sample.NUMPREC /\ 0 < Sample.pi /\
  or_default (Some 4) (20 * 0.2) / 2
  - or_default (Some 2) (or_default (Some 4) (20 * 0.2) * 0.1) == 0 /\
  exists fuel,
    coilspring_compression Sample.NUMPREC Sample.pi Sample.cos Sample.sin
      Sample.curve_resolution fuel 20 (Some 4) (Some 2) true
    = Raise ZeroDivisionError.
Proof.
  assert (H1 : 0 <= Sample.NUMPREC) by (unfold Sample.NUMPREC; lra).
  assert (H2 : 0 < Sample.pi) by reflexivity.
  assert (H3 : or_default (Some 4) (20 * 0.2) / 2
               - or_default (Some 2) (or_default (Some 4) (20 * 0.2) * 0.1) == 0)
    by reflexivity.
  split; [exact H1|]. split; [exact H2|]. split; [exact H3|].
  exact (proj2 (compression_zero_division Sample.NUMPREC Sample.pi Sample.cos
                  Sample.sin Sample.curve_resolution 20 (Some 4) (Some 2) true
                  H1 H2) H3).
Defined.

Lemma compression_on_cylinder_witness :
  (forall t, Sample.cos t * Sample.cos t + Sample.sin t * Sample.sin t == 1) /\
  exists fuel path,
    coilspring_compression Sample.NUMPREC Sample.pi Sample.cos Sample.sin
      Sample.curve_resolution fuel 20 (Some 4) (Some 0.4) false
    = Ret (Path path) /\
    Forall (fun p => axis_dist2 p == (4 / 2 - 0.4) * (4 / 2 - 0.4)) (points path).
Proof.
  split; [exact sample_unit_circle|].
  destruct (compression_endpoints Sample.NUMPREC Sample.pi Sample.cos Sample.sin
              Sample.curve_resolution 20 4 0.4)
    as (fuel & path & _ & _ & Hrun & _);
    [unfold Sample.NUMPREC; lra | unfold Sample.pi; lra | lra | reflexivity
    | left; lra |].
  exists fuel, path. split; [exact Hrun|].
  exact (proj2 (compression_on_cylinder Sample.NUMPREC Sample.pi Sample.cos
                  Sample.sin Sample.curve_resolution fuel 20 (Some 4) (Some 0.4)
                  path sample_unit_circle Hrun)).
Defined.

Lemma compression_solid_sweeps_path_witness :
  0 <= Sample.NUMPREC /\ 0 < Sample.pi /\
  exists fuel path p0,
    coilspring_compression Sample.NUMPREC Sample.pi Sample.cos Sample.sin
      Sample.curve_resolution fuel 20 (Some 4) (Some 0.4) false
    = Ret (Path path) /\
    coilspring_compression Sample.NUMPREC Sample.pi Sample.cos Sample.sin
      Sample.curve_resolution fuel 20 (Some 4) (Some 0.4) true
    = Ret (Tube (mkDisc p0 vY true (0.4 / 2) true) path).
Proof.
  assert (H1 : 0 <= Sample.NUMPREC) by (unfold Sample.NUMPREC; lra).
  assert (H2 : 0 < Sample.pi) by (unfold Sample.pi; lra).
  split; [exact H1|]. split; [exact H2|].
  destruct (compression_endpoints Sample.NUMPREC Sample.pi Sample.cos Sample.sin
              Sample.curve_resolution 20 4 0.4)
    as (fuel & path & _ & _ & Hrun & _);
    [exact H1 | exact H2 | lra | reflexivity | left; lra |].
  destruct (compression_solid_sweeps_path Sample.NUMPREC Sample.pi Sample.cos
              Sample.sin Sample.curve_resolution fuel 20 (Some 4) (Some 0.4)
              path H1 H2 Hrun) as (p0 & _ & _ & Hsolid).
  exists fuel, path, p0. split; [exact Hrun | exact Hsolid].
Defined.

Lemma compression_default_call_witness :
  0 <= Sample.NUMPREC /\ 0 < Sample.pi /\ 0 < 20 /\
  exists fuel path,
    coilspring_compression Sample.NUMPREC Sample.pi Sample.cos Sample.sin
      Sample.curve_resolution fuel 20 None None false = Ret (Path path).
Proof.
  assert (H1 : 0 <= Sample.NUMPREC) by (unfold Sample.NUMPREC; lra).
  assert (H2 : 0 < Sample.pi) by (unfold Sample.pi; lra).
  assert (H3 : 0 < 20) by reflexivity.
  split; [exact H1|]. split; [exact H2|]. split; [exact H3|].
  destruct (compression_default_call Sample.NUMPREC Sample.pi Sample.cos
              Sample.sin Sample.curve_resolution 20 H1 H2 H3)
    as (fuel & path & p & Hrun & _).
  exists fuel, path. exact Hrun.
Defined.

Lemma tension_too_short_witness :
  4 = or_default (Some 4) (1 * 0.2) /\
  0.4 = or_default (Some 0.4) (4 * 0.1) /\
  ~ 0.4 == 0 /\
  0 < Sample.pi /\
  2 * Sample.pi * (floor ((1 - 2 * (4 / 2 - 0.4)) / 0.4) - 0.5) + Sample.NUMPREC < 0 /\
  coilspring_tension (fun x => x) Sample.NUMPREC Sample.pi Sample.cos Sample.sin
    Sample.curve_resolution 1 1 (Some 4) (Some 0.4) true = Raise IndexError.
Proof.
  assert (H1 : 4 = or_default (Some 4) (1 * 0.2)) by reflexivity.
  assert (H2 : 0.4 = or_default (Some 0.4) (4 * 0.1)) by reflexivity.
  assert (H3 : ~ 0.4 == 0) by (intros C; discriminate C).
  assert (H4 : 0 < Sample.pi) by reflexivity.
  assert (H5 : 2 * Sample.pi * (floor ((1 - 2 * (4 / 2 - 0.4)) / 0.4) - 0.5)
               + Sample.NUMPREC < 0) by reflexivity.
  repeat (split; [assumption|]).
  exact (tension_too_short (fun x => x) Sample.NUMPREC Sample.pi Sample.cos
           Sample.sin Sample.curve_resolution 0 1 (Some 4) (Some 0.4) 4 0.4 true
           H1 H2 H3 H4 H5).
Defined.

Lemma tension_returns_witness :
  20 * 0.2 = or_default None (20 * 0.2) /\
  20 * 0.2 * 0.1 = or_default None (20 * 0.2 * 0.1) /\
  ~ 20 * 0.2 * 0.1 == 0 /\
  0 <= Sample.NUMPREC /\ 0 < Sample.pi /\
  0 <= floor ((20 - 2 * (20 * 0.2 / 2 - 20 * 0.2 * 0.1)) / (20 * 0.2 * 0.1)) - 0.5 /\
  exists fuel a1 a2 coil a3 a4,
    coilspring_tension (fun x => x) Sample.NUMPREC Sample.pi Sample.cos Sample.sin
      Sample.curve_resolution fuel 20 None None false
    = Ret (Path [a1; a2; Sub coil; a3; a4]) /\
    connected [a1; a2; Sub coil; a3; a4].
Proof.
  assert (H1 : 20 * 0.2 = or_default None (20 * 0.2)) by reflexivity.
  assert (H2 : 20 * 0.2 * 0.1 = or_default None (20 * 0.2 * 0.1)) by reflexivity.
  assert (H3 : ~ 20 * 0.2 * 0.1 == 0) by (intros C; discriminate C).
  assert (H4 : 0 <= Sample.NUMPREC) by (unfold Sample.NUMPREC; lra).
  assert (H5 : 0 < Sample.pi) by reflexivity.
  assert (H6 : 0 <= floor ((20 - 2 * (20 * 0.2 / 2 - 20 * 0.2 * 0.1))
                           / (20 * 0.2 * 0.1)) - 0.5)
    by (vm_compute; discriminate).
  repeat (split; [assumption|]).
  destruct (tension_returns (fun x => x) Sample.NUMPREC Sample.pi Sample.cos
              Sample.sin Sample.curve_resolution 20 None None (20 * 0.2)
              (20 * 0.2 * 0.1) H1 H2 H3 H4 H5 H6)
    as (fuel & a1 & a2 & coil & a3 & a4 & Hrun & Hconn & _).
  exists fuel, a1, a2, coil, a3, a4. split; [exact Hrun | exact Hconn].
Defined.

Lemma springs_zero_division_witness :
  0 < Sample.pi /\
  coilspring_tension (fun y => y) Sample.NUMPREC Sample.pi Sample.cos Sample.sin
    Sample.curve_resolution 10 0 None None true = Raise ZeroDivisionError /\
  coilspring_torsion Sample.NUMPREC Sample.pi Sample.cos Sample.sin
    Sample.curve_resolution 10 0 None None None None None true
  = Raise ZeroDivisionError.
Proof.
  assert (H1 : 0 < Sample.pi) by reflexivity.
  assert (H2 : unset None = true /\ unset None = true /\ 0 == 0)
    by (repeat split; reflexivity).
  assert (H3 : forall x : Q, (fun y => y) x == 0 <-> x == 0)
    by (intros x; reflexivity).
  split; [exact H1|].
  destruct (springs_zero_division (fun y => y) Sample.NUMPREC Sample.pi
              Sample.cos Sample.sin Sample.curve_resolution 10 0 0 None None
              None None None true H1)
    as [Ht [_ Ho]].
  split; [exact (proj2 (Ht H3) H2) | exact (Ho H2)].
Defined.

Lemma torsion_endpoints_witness :
  0 <= Sample.NUMPREC /\ 0 < Sample.pi /\
  Sample.sin 0 == 0 /\ Sample.cos 0 == 1 /\
  ~ or_default (Some 1) (or_default (Some 12) 8 * 0.1) == 0 /\
  exists fuel w p,
    coilspring_torsion Sample.NUMPREC Sample.pi Sample.cos Sample.sin
      Sample.curve_resolution fuel 8 (Some 1) (Some 12) (Some 3) (Some 1) (Some 2)
      false
    = Ret (Path w) /\
    first_item (points w) = Ret p /\
    axis_dist2 p == 8 * 8 + (12 / 2 - 1) * (12 / 2 - 1).
Proof.
  assert (H1 : 0 <= Sample.NUMPREC) by (unfold Sample.NUMPREC; lra).
  assert (H2 : 0 < Sample.pi) by reflexivity.
  assert (H3 : Sample.sin 0 == 0) by reflexivity.
  assert (H4 : Sample.cos 0 == 1) by reflexivity.
  assert (H5 : ~ or_default (Some 1) (or_default (Some 12) 8 * 0.1) == 0)
    by (intros C; discriminate C).
  repeat (split; [assumption|]).
  destruct (torsion_endpoints Sample.NUMPREC Sample.pi Sample.cos Sample.sin
              Sample.curve_resolution 8 (Some 1) (Some 12) (Some 3) (Some 1)
              (Some 2) H1 H2 H3 H4 (sample_unit_circle _) H5)
    as (fuel & w & p & _ & Hrun & Hp & _ & Hd & _).
  { vm_compute. discriminate. }
  exists fuel, w, p. split; [exact Hrun|]. split; [exact Hp | exact Hd].
Defined.

(** ** What nut and washer return *)

Lemma Qlt_bool_iff (x y : Q) : Qlt_bool x y = true <-> x < y.
Proof.
  unfold Qlt_bool. rewrite negb_true_iff.
  destruct (Qle_bool y x) eqn:E.
  - apply Qle_bool_iff in E. split; [discriminate | intros H; lra].
  - split; [intros _ | reflexivity].
    apply Qnot_le_lt. intros C. apply Qle_bool_iff in C. congruence.
Qed.

Lemma Qsame_eq (x y : Q) : Qsame x y = true -> x = y.
Proof.
  destruct x as [a b], y as [c d]. unfold Qsame. cbn [Qnum Qden].
  rewrite andb_true_iff, Z.eqb_eq, Pos.eqb_eq. intros [-> ->]. reflexivity.
Qed.

Lemma hexnut_rows_ok (row : Q * Q * Q) :
  In row standard_hexnuts -> hexnut_row_ok row = true.
Proof.
  assert (H : forallb hexnut_row_ok standard_hexnuts = true) by reflexivity.
  rewrite forallb_forall in H. apply H.
Qed.

Lemma hexnut_row_unique (row row' : Q * Q * Q) :
  In row standard_hexnuts -> In row' standard_hexnuts ->
  hexnut_key row == hexnut_key row' -> row = row'.
Proof.
  intros Hin Hin' Hkey.
  assert (H : hexnut_keys_distinct = true) by reflexivity.
  unfold hexnut_keys_distinct in H. rewrite forallb_forall in H.
  specialize (H row Hin). rewrite forallb_forall in H. specialize (H row' Hin').
  apply Qeq_bool_iff in Hkey. rewrite Hkey in H. cbn [implb] in H.
  destruct row as [[k w] h], row' as [[k' w'] h']. cbn [hexnut_row_same] in H.
  rewrite !andb_true_iff in H. destruct H as [[Hk Hw] Hh].
  apply Qsame_eq in Hk, Hw, Hh. congruence.
Qed.

Lemma washer_rows_ok (row : Q * Q * Q * Q) :
  In row standard_washers -> washer_row_ok row = true.
Proof.
  assert (H : forallb washer_row_ok standard_washers = true) by reflexivity.
  rewrite forallb_forall in H. apply H.
Qed.

Lemma washer_row_unique (row row' : Q * Q * Q * Q) :
  In row standard_washers -> In row' standard_washers ->
  washer_key row == washer_key row' -> row = row'.
Proof.
  intros Hin Hin' Hkey.
  assert (H : washer_keys_distinct = true) by reflexivity.
  unfold washer_keys_distinct in H. rewrite forallb_forall in H.
  specialize (H row Hin). rewrite forallb_forall in H. specialize (H row' Hin').
  apply Qeq_bool_iff in Hkey. rewrite Hkey in H. cbn [implb] in H.
  destruct row as [[[k i] e] h], row' as [[[k' i'] e'] h'].
  cbn [washer_row_same] in H.
  rewrite !andb_true_iff in H. destruct H as [[[Hk Hi] He] Hh].
  apply Qsame_eq in Hk, Hi, He, Hh. congruence.
Qed.

(** In a list of diameters with close steps, every [d] between 5/6 of the
    first and 5/4 of the last is within 20 % (of [d]) of one of them. *)
Lemma close_steps_cover (l : list Q) :
  forall k d,
    close_steps k l = true ->
    k < 1.2 * d -> 0.8 * d < last l k ->
    exists k', In k' (k :: l) /\ k' < 1.2 * d /\ 0.8 * d < k'.
Proof.
  induction l as [|k1 l IH]; intros k d Hsteps Hlo Hhi.
  - exists k. cbn [last] in Hhi. split; [now left | split; assumption].
  - cbn [close_steps] in Hsteps. apply andb_true_iff in Hsteps.
    destruct Hsteps as [Hk1 Hsteps]. apply Qlt_bool_iff in Hk1.
    destruct (Qlt_le_dec (0.8 * d) k) as [Hin|Hout].
    + exists k. split; [now left | split; assumption].
    + destruct (IH k1 d Hsteps) as (k' & Hin' & Hb).
      * lra.
      * rewrite <- (last_cons l k1 k). exact Hhi.
      * exists k'. split; [now right | exact Hb].
Qed.

Lemma washer_band (d : Q) :
  (4 # 3) < d -> d < 70 ->
  exists row, In row standard_washers /\ Qabs (washer_key row - d) < 0.2 * d.
Proof.
  intros Hlo Hhi.
  destruct (close_steps_cover (tl (map washer_key standard_washers))
              (hd 0 (map washer_key standard_washers)) d)
    as (k & Hin & Hk1 & Hk2).
  { reflexivity. }
  { cbn [map hd standard_washers washer_key fst]. lra. }
  { assert (E : last (tl (map washer_key standard_washers))
                     (hd 0 (map washer_key standard_washers)) = 56)
      by reflexivity.
    rewrite E. lra. }
  change (hd 0 (map washer_key standard_washers)
          :: tl (map washer_key standard_washers))
    with (map washer_key standard_washers) in Hin.
  apply in_map_iff in Hin. destruct Hin as (row & <- & Hin).
  exists row. split; [exact Hin|].
  apply Qabs_case; intros _; lra.
Qed.

Section FastenerResults.

Variable bisect : forall A : Type, list A -> Q -> (A -> Q) -> nat.

(** X15.  Whatever the lookup, a nut that [nut(d)] returns is the nut of the one
    row of [d]: [d] lies between 1.6 and 64, the nut has the thread diameter
    [d], a width across flats above [d] and a positive height, and any other
    lookup that finds a nut for [d] finds the same. *)
Theorem nut_result (bisect' : forall A : Type, list A -> Q -> (A -> Q) -> nat)
    (d : Q) (m : HexNut) :
  nut bisect d = Ret m ->
  1.6 <= d <= 64 /\
  nut_d m == d /\
  nut_d m < nut_w m /\
  0 < nut_h m /\
  forall m', nut bisect' d = Ret m' -> m' = m.
Proof.
  intros H.
  destruct (nut_requires_exact_match bisect d m H) as (k & w & h & Hin & Hk & ->).
  pose proof (hexnut_rows_ok _ Hin) as Hok. cbn [hexnut_row_ok] in Hok.
  rewrite !andb_true_iff in Hok. destruct Hok as [[[H1 H2] H3] H4].
  apply Qle_bool_iff in H1, H2. apply Qlt_bool_iff in H3, H4.
  cbn [nut_d nut_w nut_h].
  split; [lra|]. split; [exact Hk|]. split; [exact H3|]. split; [exact H4|].
  intros m' H'.
  destruct (nut_requires_exact_match bisect' d m' H')
    as (k' & w' & h' & Hin' & Hk' & ->).
  assert (E : (k', w', h') = (k, w, h)).
  { apply hexnut_row_unique; [exact Hin' | exact Hin |].
    cbn [hexnut_key fst]. lra. }
  congruence.
Qed.

(** X16.  [washer(d)] does not reject a diameter that is not positive: for
    [d < 0] the relative distance [abs(nominal - d) / d] is negative, hence
    below 0.2, and the washer of whatever row the lookup selects is
    returned; for [d = 0] the division fails. *)
Theorem washer_nonpositive_diameter (d : Q) (row : Q * Q * Q * Q) :
  nth_error standard_washers (bisect _ standard_washers d washer_key) = Some row ->
  (d < 0 ->
   washer bisect d None None
   = Ret (mkWasher (snd (fst (fst row))) (snd (fst row)) (snd row))) /\
  (d == 0 -> washer bisect d None None = Raise ZeroDivisionError).
Proof.
  intros Hrow. split; intros Hd.
  - apply (washer_decision bisect d row Hrow); [lra|].
    pose proof (Qabs_nonneg (washer_key row - d)) as Hn.
    set (x := Qabs (washer_key row - d)) in *.
    assert (Hinv : / d < 0).
    { setoid_replace (/ d) with (- / - d) by (field; lra).
      assert (0 < / - d) by (apply Qinv_lt_0_compat; lra). lra. }
    unfold Qdiv. set (y := / d) in *. nra.
  - unfold washer, item. rewrite Hrow. cbn [bind].
    now rewrite (pydiv_zero _ _ Hd).
Qed.

(** X17.  With a nearest-row lookup, [washer(d)] with a positive [d] returns a
    standard washer exactly when [4/3 < d < 70]: the washer of a row within
    20 % of [d], with a hole wider than the nominal diameter of the row and
    narrower than the washer; outside of that range it raises the
    no-standard-size error. *)
Theorem washer_accepted_range (d : Q) :
  selects_nearest bisect ->
  0 < d ->
  ((4 # 3) < d -> d < 70 ->
   exists k i e h,
     In (k, i, e, h) standard_washers /\
     Qabs (k - d) < 0.2 * d /\
     k < i /\ i < e /\ 0 < h /\
     washer bisect d None None = Ret (mkWasher i e h)) /\
  (d <= (4 # 3) \/ 70 <= d ->
   washer bisect d None None
   = Raise (ValueError "no standard nut for the given diameter")).
Proof.
  intros Hb Hd.
  destruct (Hb _ standard_washers d washer_key standard_washers_nonempty)
    as (row & Hrow & Hmin).
  destruct (washer_decision bisect d row Hrow) as [Hok Herr]; [lra|].
  assert (Hin : In row standard_washers) by (eapply nth_error_In, Hrow).
  pose proof (washer_rows_ok row Hin) as Hrows.
  destruct row as [[[k i] e] h]. cbn [washer_row_ok] in Hrows.
  rewrite !andb_true_iff in Hrows. destruct Hrows as [[[[H1 H2] H3] H4] H5].
  apply Qle_bool_iff in H1, H2. apply Qlt_bool_iff in H3, H4, H5.
  cbn [washer_key fst snd] in *.
  split.
  - intros Hlo Hhi.
    destruct (washer_band d Hlo Hhi) as (row' & Hin' & Hband).
    specialize (Hmin row' Hin').
    exists k, i, e, h. split; [exact Hin|].
    split; [lra|]. split; [exact H3|]. split; [exact H4|]. split; [exact H5|].
    apply Hok. apply Qlt_shift_div_r; [exact Hd | lra].
  - intros Hout. apply Herr. apply Qle_shift_div_l; [exact Hd|].
    apply Qabs_case; intros Hsign; destruct Hout; lra.
Qed.

(** X21.  With a nearest-row lookup, [washer(d)] for a nominal diameter of the
    table returns the washer of that very row, and its hole is wider than
    [d]. *)
Theorem washer_listed_diameter (d k i e h : Q) :
  selects_nearest bisect ->
  In (k, i, e, h) standard_washers ->
  d == k ->
  washer bisect d None None = Ret (mkWasher i e h) /\ d < i.
Proof.
  intros Hb Hin Hd.
  destruct (Hb _ standard_washers d washer_key standard_washers_nonempty)
    as (row & Hrow & Hmin).
  assert (Hin' : In row standard_washers) by (eapply nth_error_In, Hrow).
  pose proof (washer_rows_ok _ Hin) as Hok. cbn [washer_row_ok] in Hok.
  rewrite !andb_true_iff in Hok. destruct Hok as [[[[H1 H2] H3] H4] H5].
  apply Qle_bool_iff in H1, H2. apply Qlt_bool_iff in H3, H4, H5.
  assert (Hkey : washer_key row == d).
  { specialize (Hmin _ Hin). cbn [washer_key fst] in Hmin.
    assert (E : Qabs (k - d) == 0).
    { setoid_replace (k - d) with 0 by lra. reflexivity. }
    rewrite E in Hmin.
    pose proof (Qabs_nonneg (washer_key row - d)) as Hnn.
    assert (Hz : Qabs (washer_key row - d) == 0) by lra.
    apply Qabs_zero_inv in Hz. lra. }
  assert (Erow : row = (k, i, e, h)).
  { apply washer_row_unique; [exact Hin' | exact Hin |].
    cbn [washer_key fst] in *. lra. }
  subst row. split; [|lra].
  apply (washer_decision bisect d (k, i, e, h) Hrow); [lra|].
  cbn [washer_key fst].
  assert (E : Qabs (k - d) == 0).
  { setoid_replace (k - d) with 0 by lra. reflexivity. }
  rewrite E. unfold Qdiv. setoid_replace (0 * / d) with 0 by ring. reflexivity.
Qed.

End FastenerResults.

Lemma nut_result_witness :
  nut nearest 8 = Ret (mkHexNut 8 13 6.8) /\
  1.6 <= 8 <= 64 /\ nut_d (mkHexNut 8 13 6.8) < nut_w (mkHexNut 8 13 6.8).
Proof.
  assert (H : nut nearest 8 = Ret (mkHexNut 8 13 6.8)) by reflexivity.
  split; [exact H|].
  pose proof (nut_result nearest nearest 8 (mkHexNut 8 13 6.8) H) as (H1 & _ & H3 & _).
  split; [exact H1 | exact H3].
Defined.

Lemma washer_nonpositive_diameter_witness :
  nth_error standard_washers (nearest _ standard_washers (- (5)) washer_key)
  = Some (1.6, 1.7, 4, 0.3) /\
  - (5) < 0 /\
  washer nearest (- (5)) None None = Ret (mkWasher 1.7 4 0.3).
Proof.
  assert (H1 : nth_error standard_washers
                 (nearest _ standard_washers (- (5)) washer_key)
               = Some (1.6, 1.7, 4, 0.3)) by reflexivity.
  assert (H2 : - (5) < 0) by reflexivity.
  split; [exact H1|]. split; [exact H2|].
  exact (proj1 (washer_nonpositive_diameter nearest (- (5)) _ H1) H2).
Defined.

Lemma washer_accepted_range_witness :
  selects_nearest nearest /\ 0 < 4.4 /\ (4 # 3) < 4.4 /\ 4.4 < 70 /\
  exists k i e h,
    In (k, i, e, h) standard_washers /\
    washer nearest 4.4 None None = Ret (mkWasher i e h).
Proof.
  assert (H1 : selects_nearest nearest) by exact nearest_selects_nearest.
  assert (H2 : 0 < 4.4) by reflexivity.
  assert (H3 : (4 # 3) < 4.4) by reflexivity.
  assert (H4 : 4.4 < 70) by reflexivity.
  split; [exact H1|]. split; [exact H2|]. split; [exact H3|]. split; [exact H4|].
  destruct (proj1 (washer_accepted_range nearest 4.4 H1 H2) H3 H4)
    as (k & i & e & h & Hin & _ & _ & _ & _ & Hrun).
  exists k, i, e, h. split; [exact Hin | exact Hrun].
Defined.

Lemma washer_listed_diameter_witness :
  selects_nearest nearest /\ In (3, 3.2, 7, 0.5) standard_washers /\ 3 == 3 /\
  washer nearest 3 None None = Ret (mkWasher 3.2 7 0.5) /\ 3 < 3.2.
Proof.
  assert (H1 : selects_nearest nearest) by exact nearest_selects_nearest.
  assert (H2 : In (3, 3.2, 7, 0.5) standard_washers)
    by (do 4 right; left; reflexivity).
  assert (H3 : 3 == 3) by reflexivity.
  split; [exact H1|]. split; [exact H2|]. split; [exact H3|].
  exact (washer_listed_diameter nearest 3 3 3.2 7 0.5 H1 H2 H3).
Defined.

(** ** Screw codes *)

Lemma dict_get_cases (codes : list (string * string)) (key : string) :
  (exists k, In (k, dict_get codes key) codes /\ key = k) \/
  (dict_get codes key = key /\ forall k v, In (k, v) codes -> key <> k).
Proof.
  induction codes as [|[k v] codes IH]; cbn [dict_get].
  - right. split; [reflexivity|]. intros k v [].
  - destruct (String.eqb key k) eqn:E.
    + apply String.eqb_eq in E. left. exists k. split; [now left | exact E].
    + apply String.eqb_neq in E. destruct IH as [(k' & Hin & Hk)|[Heq Hno]].
      * left. exists k'. split; [now right | exact Hk].
      * right. split; [exact Heq|]. intros k' v' [Hin|Hin].
        -- inversion Hin; subst. exact E.
        -- now apply (Hno k' v').
Qed.

(** A name that went through the dictionary is not changed by it again. *)
Lemma dict_get_stable (codes : list (string * string)) (key : string) :
  values_are_resolved codes = true ->
  dict_get codes (dict_get codes key) = dict_get codes key.
Proof.
  intros Hv. unfold values_are_resolved in Hv. rewrite forallb_forall in Hv.
  destruct (dict_get_cases codes key) as [(k & Hin & _)|[Heq _]].
  - specialize (Hv _ Hin). cbn [snd] in Hv. now apply String.eqb_eq in Hv.
  - now rewrite !Heq.
Qed.

Lemma dict_get_truthy (codes : list (string * string)) (key : string) :
  forallb (fun kv => negb (String.eqb (snd kv) "")) codes = true ->
  key <> ""%string -> dict_get codes key <> ""%string.
Proof.
  intros Hv Hkey. rewrite forallb_forall in Hv.
  destruct (dict_get_cases codes key) as [(k & Hin & _)|[Heq _]].
  - specialize (Hv _ Hin). cbn [snd] in Hv. apply negb_true_iff in Hv.
    now apply String.eqb_neq in Hv.
  - now rewrite Heq.
Qed.

Lemma split_code_truthy (codes : list (string * string)) (head h code : string) :
  forallb (fun kv => negb (String.eqb (fst kv) "")) codes = true ->
  split_code codes head = Some (h, code) -> code <> ""%string.
Proof.
  induction codes as [|[k v] codes IH]; cbn [split_code forallb fst]; [discriminate|].
  intros Hv H. apply andb_true_iff in Hv. destruct Hv as [Hk Hv].
  destruct (endswith head k).
  - inversion H; subst. apply negb_true_iff in Hk. now apply String.eqb_neq in Hk.
  - now apply IH.
Qed.

Lemma falsy_Some (s : string) : s <> ""%string -> falsy (Some s) = false.
Proof. intros H. cbn [falsy]. now apply String.eqb_neq. Qed.

(** What [screw_spec] does when a drive is given. *)
Lemma screw_spec_given (head drive : string) :
  drive <> ""%string ->
  screw_spec head (Some drive)
  = (dict_get screwheads_codes head, Some (dict_get screwdrives_codes drive)).
Proof.
  intros Hd. unfold screw_spec. rewrite (falsy_Some drive Hd).
  cbn [andb option_map].
  rewrite falsy_Some, andb_false_r; [reflexivity|].
  apply dict_get_truthy; [reflexivity | exact Hd].
Qed.

(** X18.  The names [screw_spec] returns are resolved: given back to it, they come
    out unchanged.  The drive is missing (or empty) only for a hex head. *)
Theorem screw_spec_resolved (head : string) (drive : option string) :
  screw_spec (fst (screw_spec head drive)) (snd (screw_spec head drive))
  = screw_spec head drive /\
  (falsy (snd (screw_spec head drive)) = true ->
   fst (screw_spec head drive) = "hex"%string).
Proof.
  assert (Hheads : forall h,
             dict_get screwheads_codes (dict_get screwheads_codes h)
             = dict_get screwheads_codes h).
  { intros h. now apply dict_get_stable. }
  assert (Hdrives : forall c,
             dict_get screwdrives_codes (dict_get screwdrives_codes c)
             = dict_get screwdrives_codes c).
  { intros c. now apply dict_get_stable. }
  assert (Hgiven : forall h c, c <> ""%string ->
             let r := (dict_get screwheads_codes h,
                       Some (dict_get screwdrives_codes c)) in
             screw_spec (fst r) (snd r) = r /\
             (falsy (snd r) = true -> fst r = "hex"%string)).
  { intros h c Hc r. subst r. cbn [fst snd]. split.
    - rewrite screw_spec_given, Hheads, Hdrives; [reflexivity|].
      apply dict_get_truthy; [reflexivity | exact Hc].
    - rewrite falsy_Some; [discriminate|].
      apply dict_get_truthy; [reflexivity | exact Hc]. }
  assert (Hmissing : forall h d, falsy d = true ->
             let r := (let head := dict_get screwheads_codes h in
                       let drive := option_map (dict_get screwdrives_codes) d in
                       let drive :=
                         if negb (String.eqb head "hex") && falsy drive
                         then Some "hex"%string else drive in
                       (head, drive)) in
             screw_spec (fst r) (snd r) = r /\
             (falsy (snd r) = true -> fst r = "hex"%string)).
  { intros h d Hd. cbv zeta.
    assert (Hd' : option_map (dict_get screwdrives_codes) d = d).
    { destruct d as [s|]; [|reflexivity]. cbn [falsy] in Hd.
      apply String.eqb_eq in Hd. subst s. reflexivity. }
    rewrite Hd', Hd, andb_true_r.
    destruct (String.eqb (dict_get screwheads_codes h) "hex") eqn:E; cbn [negb fst snd].
    - apply String.eqb_eq in E. rewrite E. split; [|reflexivity].
      unfold screw_spec. rewrite Hd.
      change (isupper "hex") with false. cbn [andb].
      change (dict_get screwheads_codes "hex") with "hex"%string.
      rewrite Hd', Hd. reflexivity.
    - split; [|discriminate].
      rewrite screw_spec_given by discriminate. rewrite Hheads. reflexivity. }
  destruct (falsy drive) eqn:Hf.
  - unfold screw_spec at 2 3 4 5 6. rewrite Hf. cbn [andb].
    destruct (isupper head).
    + destruct (split_code screwdrives_codes head) as [[h code]|] eqn:Hs.
      * assert (Hc : code <> ""%string).
        { eapply split_code_truthy; [|exact Hs]. reflexivity. }
        cbn [option_map].
        rewrite (falsy_Some (dict_get screwdrives_codes code)), andb_false_r
          by (apply dict_get_truthy; [reflexivity | exact Hc]).
        apply (Hgiven h code Hc).
      * apply (Hmissing head drive Hf).
    + apply (Hmissing head drive Hf).
  - destruct drive as [c|]; [|discriminate].
    assert (Hc : c <> ""%string).
    { cbn [falsy] in Hf. now apply String.eqb_neq. }
    rewrite (screw_spec_given head c Hc). apply (Hgiven head c Hc).
Qed.


Lemma last_char_app (p c : string) :
  c <> ""%string -> last_char (p ++ c) = last_char c.
Proof.
  intros Hc. induction p as [|a p IH]; [reflexivity|].
  cbn [append]. cbn [last_char]. rewrite IH.
  destruct (p ++ c)%string eqn:E; [|reflexivity].
  destruct p; [cbn in E; contradiction | discriminate].
Qed.

Lemma endswith_last_char (s suffix : string) :
  suffix <> ""%string -> endswith s suffix = true ->
  last_char s = last_char suffix.
Proof.
  intros Hne. induction s as [|a s IH]; cbn [endswith]; intros H.
  - rewrite orb_false_r in H. apply String.eqb_eq in H. now subst.
  - apply orb_true_iff in H. destruct H as [H|H].
    + apply String.eqb_eq in H. now subst.
    + specialize (IH H). cbn [last_char].
      destruct s as [|b s]; [|exact IH].
      cbn [endswith] in H. rewrite orb_false_r in H.
      apply String.eqb_eq in H. congruence.
Qed.

Lemma endswith_other (p c suffix : string) :
  c <> ""%string -> suffix <> ""%string ->
  last_char c <> last_char suffix -> endswith (p ++ c) suffix = false.
Proof.
  intros Hc Hs Hdiff. destruct (endswith (p ++ c) suffix) eqn:E; [|reflexivity].
  apply endswith_last_char in E; [|exact Hs].
  rewrite last_char_app in E by exact Hc. contradiction.
Qed.

Lemma endswith_app (p c : string) : endswith (p ++ c) c = true.
Proof.
  induction p as [|a p IH].
  - cbn [append]. destruct c; cbn [endswith]; now rewrite String.eqb_refl.
  - cbn [append endswith]. rewrite IH. apply orb_true_r.
Qed.

Lemma drop_end_app (p c : string) : drop_end (p ++ c) (String.length c) = p.
Proof.
  unfold drop_end.
  assert (E : (String.length (p ++ c) - String.length c = String.length p)%nat).
  { assert (L : (String.length (p ++ c) = String.length p + String.length c)%nat).
    { induction p as [|a p IH]; cbn [append String.length]; [reflexivity|].
      now rewrite IH. }
    lia. }
  rewrite E. clear E.
  induction p as [|a p IH]; cbn [append String.length substring].
  - destruct c; reflexivity.
  - now rewrite IH.
Qed.

Lemma list_ascii_app (p c : string) :
  list_ascii_of_string (p ++ c)
  = (list_ascii_of_string p ++ list_ascii_of_string c)%list.
Proof.
  induction p as [|a p IH]; cbn [append list_ascii_of_string app];
    [reflexivity | now rewrite IH].
Qed.

Lemma isupper_app_r (p c : string) :
  isupper (p ++ c) = true ->
  forallb (fun a => negb (is_lower_letter a)) (list_ascii_of_string c) = true.
Proof.
  unfold isupper. rewrite list_ascii_app, forallb_app, !andb_true_iff.
  now intros (_ & _ & H).
Qed.

(** X19.  Head and drive given at once: an uppercase head that ends with a drive
    code is the code of a head followed by that of a drive, whichever the
    head, and no drive is defaulted. *)
Theorem screw_spec_suffix (p c v : string) (drive : option string) :
  In (c, v) screwdrives_codes ->
  falsy drive = true ->
  isupper (p ++ c) = true ->
  screw_spec (p ++ c) drive = (dict_get screwheads_codes p, Some v).
Proof.
  intros Hin Hf Hup.
  assert (Hsplit : split_code screwdrives_codes (p ++ c) = Some (p, c)
                   /\ dict_get screwdrives_codes c = v /\ v <> ""%string).
  { pose proof (isupper_app_r p c Hup) as Hlow.
    unfold screwdrives_codes in Hin |- *. cbn [In] in Hin.
    repeat (destruct Hin as [Hin|Hin];
            [inversion Hin; subst c v; clear Hin;
             try discriminate Hlow;
             (split; [|split; [reflexivity | discriminate]]);
             cbn [split_code];
             repeat (rewrite (endswith_other p _ _)
                       by (cbn [last_char]; congruence));
             rewrite endswith_app, drop_end_app; reflexivity|]).
    contradiction. }
  destruct Hsplit as (Hsplit & Hget & Hv).
  unfold screw_spec. rewrite Hf, Hup. cbn [andb]. rewrite Hsplit.
  cbn [option_map]. rewrite Hget, (falsy_Some v Hv), andb_false_r. reflexivity.
Qed.

(** X20.  The head codes without a drive: every code of [screwheads_codes] gives
    its head, with a hex drive unless the head itself is hex, except ['FT']
    which is read as a head ['F'] with a torx drive. *)
Theorem screw_spec_head_codes (k v : string) :
  In (k, v) screwheads_codes ->
  screw_spec k None
  = if String.eqb k "FT" then ("F", Some "torx")%string
    else (v, if String.eqb v "hex" then None else Some "hex")%string.
Proof.
  unfold screwheads_codes. cbn [In].
  intros H.
  repeat (destruct H as [H|H]; [inversion H; subst; reflexivity|]).
  contradiction.
Qed.

Lemma screw_spec_suffix_witness :
  In ("T", "torx")%string screwdrives_codes /\
  falsy None = true /\
  isupper ("SH" ++ "T") = true /\
  screw_spec ("SH" ++ "T") None = ("socket", Some "torx")%string.
Proof.
  assert (H1 : In ("T", "torx")%string screwdrives_codes)
    by (right; left; reflexivity).
  assert (H2 : falsy None = true) by reflexivity.
  assert (H3 : isupper ("SH" ++ "T") = true) by reflexivity.
  split; [exact H1|]. split; [exact H2|]. split; [exact H3|].
  exact (screw_spec_suffix "SH" "T" "torx" None H1 H2 H3).
Defined.

Lemma screw_spec_head_codes_witness :
  In ("FT", "none")%string screwheads_codes /\
  screw_spec "FT" None = ("F", Some "torx")%string.
Proof.
  assert (H1 : In ("FT", "none")%string screwheads_codes)
    by (do 7 right; left; reflexivity).
  split; [exact H1|].
  exact (screw_spec_head_codes "FT" "none" H1).
Defined.

Lemma screw_spec_resolved_witness :
  falsy (snd (screw_spec "HH" None)) = true /\
  fst (screw_spec "HH" None) = "hex"%string /\
  screw_spec (fst (screw_spec "SHT" None)) (snd (screw_spec "SHT" None))
  = screw_spec "SHT" None.
Proof.
  assert (H : falsy (snd (screw_spec "HH" None)) = true) by reflexivity.
  split; [exact H|]. split.
  - exact (proj2 (screw_spec_resolved "HH" None) H).
  - exact (proj1 (screw_spec_resolved "SHT" None)).
Defined.
